(** * svapp audio playback core: a shallow embedding

    This development embeds the parts of [audioio/AudioCallbackPlaySource.h]
    (which also carries the text of [AudioGenerator.h] and
    [IntegerTimeStretcher.cpp]) that the specification makes promises about:

    - the bounds-checked ring buffer accessors of [AudioCallbackPlaySource];
    - [AudioGenerator::NoteOff], its [Comparator] and the [NoteOffSet]
      ordered by that comparator;
    - [IntegerTimeStretcher]: constructor, [getProcessingLatency],
      [process] and [processBlock].

    [size_t] values are integers in [Z] with the 64-bit wrap-around written
    out; C arrays are lists updated by index; the two [while] loops of
    [process] carry fuel, and the fuel that suffices is computed and proved
    sufficient. *)

From Stdlib Require Import ZArith Lia Sorted.
From stdpp Require Import base tactics option list.

Local Open Scope Z_scope.

(** ** Machine integers *)

Module SizeT.

(** [size_t] on the 64-bit targets the application is built for. *)
Definition modulus : Z := 2 ^ 64.

Definition in_range (z : Z) : Prop := 0 <= z < modulus.

Definition wrap (z : Z) : Z := z mod modulus.

Definition add (a b : Z) : Z := wrap (a + b).
Definition sub (a b : Z) : Z := wrap (a - b).
Definition mul (a b : Z) : Z := wrap (a * b).

(** Unsigned division.  Dividing by zero is undefined in the source; the
    stretcher invariant keeps the one divisor there is positive. *)
Definition div (a b : Z) : Z := a / b.

End SizeT.

Module CInt.

(** Conversion of an integer value to the 32-bit [int]. *)
Definition of_Z (z : Z) : Z := (z + 2 ^ 31) mod 2 ^ 32 - 2 ^ 31.

(** [INT_MAX] *)
Definition max : Z := 2 ^ 31 - 1.

(** [int] division truncates toward zero. *)
Definition div (a b : Z) : Z := Z.quot a b.

End CInt.

(** ** Counted loops over arrays *)

(** [for_loop i n body a] runs [body] for the [n] consecutive index values
    [i], [i+1], ... as [for (k = i; k < i + n; ++k)] does. *)
Fixpoint for_loop {A : Type} (i n : nat) (body : nat -> A -> A) (a : A) : A :=
  match n with
  | O => a
  | S n' => for_loop (S i) n' body (body i a)
  end.

Section Arrays.

Context {A : Type} (dflt : A).

(** Reading [a[i]]; inside the array this is the stored element. *)
Definition arr_get (a : list A) (i : nat) : A := default dflt (a !! i).

(** [memcpy (dst + off, src, |src|)]. *)
Definition arr_copy (off : nat) (src dst : list A) : list A :=
  for_loop 0 (length src) (fun k d => <[(off + k)%nat := arr_get src k]> d) dst.

End Arrays.

(** ** Pointers and defined behaviour *)

(** A pointer is null or refers to an object. *)
Definition pointer (A : Type) : Type := option A.
Definition null {A : Type} : pointer A := None.

(** The outcome of an expression: a value, or undefined behaviour (a null
    dereference or an index outside a vector). *)
Inductive result (A : Type) : Type :=
| Undefined : result A
| Returns : A -> result A.
Arguments Undefined {A}.
Arguments Returns {A} _.

Definition bind {A B : Type} (r : result A) (k : A -> result B) : result B :=
  match r with
  | Undefined => Undefined
  | Returns a => k a
  end.

Notation "'do' x <~ r ; k" := (bind r (fun x => k))
  (at level 10, x name, r at level 100, k at level 200).

Definition deref {A : Type} (p : pointer A) : result A :=
  match p with
  | None => Undefined
  | Some a => Returns a
  end.

(** Conversion of a pointer to [bool] in a condition. *)
Definition non_null {A : Type} (p : pointer A) : bool :=
  match p with
  | None => false
  | Some _ => true
  end.

(** [a && b] evaluates [b] only when [a] is true. *)
Definition and_then (a : bool) (b : result bool) : result bool :=
  if a then b else Returns false.

(** ** AudioCallbackPlaySource: ring buffer accessors *)

Module PlaySource.

Section Accessors.

(** [RingBuffer<float>]; the accessors only pass pointers to it around. *)
Variable RingBufferFloat : Type.

(** [class RingBufferVector : public std::vector<RingBuffer<float> *>] *)
Definition RingBufferVector : Type := list (pointer RingBufferFloat).

Definition size (v : RingBufferVector) : Z := Z.of_nat (length v).

(** [v[c]] without a bounds check of its own. *)
Definition at_index (v : RingBufferVector) (c : Z) : result (pointer RingBufferFloat) :=
  if (0 <=? c) && (c <? size v)
  then match v !! Z.to_nat c with
       | Some p => Returns p
       | None => Undefined
       end
  else Undefined.

(** The fields the accessors and [isPlaying] read. *)
Record AudioCallbackPlaySource : Type := {
  m_readBuffers : pointer RingBufferVector;
  m_writeBuffers : pointer RingBufferVector;
  m_playing : bool;
  m_exiting : bool
}.

Definition isPlaying (s : AudioCallbackPlaySource) : bool := m_playing s.

Definition getWriteRingBuffer (s : AudioCallbackPlaySource) (c : Z)
  : result (pointer RingBufferFloat) :=
  do ok <~ and_then (non_null (m_writeBuffers s))
                    (do v <~ deref (m_writeBuffers s); Returns (c <? size v));
  if ok : bool
  then do v <~ deref (m_writeBuffers s); at_index v c
  else Returns null.

Definition getReadRingBuffer (s : AudioCallbackPlaySource) (c : Z)
  : result (pointer RingBufferFloat) :=
  let rb := m_readBuffers s in
  do ok <~ and_then (non_null rb) (do v <~ deref rb; Returns (c <? size v));
  if ok : bool
  then do v <~ deref rb; at_index v c
  else Returns null.

(** What both accessors compute from the vector pointer they look at. *)
Definition checked_at (rb : pointer RingBufferVector) (c : Z)
  : pointer RingBufferFloat :=
  match rb with
  | None => null
  | Some v => if c <? size v then mjoin (v !! Z.to_nat c) else null
  end.

End Accessors.

Arguments m_readBuffers {_} _.
Arguments m_writeBuffers {_} _.
Arguments getWriteRingBuffer {_} _ _.
Arguments getReadRingBuffer {_} _ _.
Arguments size {_} _.
Arguments at_index {_} _ _.
Arguments checked_at {_} _ _.

End PlaySource.

(** ** RingBufferVector: the destructor *)

Module RingBufferVectorOwner.

Section Destructor.

Context {RingBufferFloat : Type} `{EqDecision RingBufferFloat}.

(** [delete p], with the pointers handed to [delete] so far: deleting a
    null pointer does nothing, deleting an object a second time is
    undefined. *)
Definition delete (p : pointer RingBufferFloat)
    (deleted : list (pointer RingBufferFloat))
  : result (list (pointer RingBufferFloat)) :=
  match p with
  | None => Returns (deleted ++ [p])
  | Some _ =>
      if decide (p ∈ deleted) then Undefined else Returns (deleted ++ [p])
  end.

(** [~RingBufferVector]: [while (!empty()) { delete *begin(); erase(begin()); }].
    The state of the loop is the vector and the pointers handed to [delete]
    so far, in the order of the calls; [None] when the fuel does not
    suffice. *)
Fixpoint destroy (fuel : nat) (v : PlaySource.RingBufferVector RingBufferFloat)
    (deleted : list (pointer RingBufferFloat))
  : option (result (PlaySource.RingBufferVector RingBufferFloat
                    * list (pointer RingBufferFloat))) :=
  match fuel with
  | O => None
  | S fuel' =>
      match v with
      | [] => Some (Returns (v, deleted))
      | p :: rest =>
          match delete p deleted with
          | Undefined => Some Undefined
          | Returns deleted' => destroy fuel' rest deleted'
          end
      end
  end.

(** The vector owns its buffers: no object is pointed to by two of its
    entries, and none has been deleted before. *)
Definition owns_each_once (v : PlaySource.RingBufferVector RingBufferFloat)
    (deleted : list (pointer RingBufferFloat)) : Prop :=
  NoDup (omap id v) /\ forall a, Some a ∈ v -> Some a ∉ deleted.

End Destructor.

End RingBufferVectorOwner.

(** ** std::set with a caller-supplied comparator *)

Module StdSet.

Section Ordered.

Context {T : Type} (comp : T -> T -> bool).

(** The elements of a [std::set<T, Comp>] in iteration order. *)
Definition t : Type := list T.

Definition empty : t := [].

(** [insert]: the element goes before the first one it is ordered before;
    when an element equivalent under [comp] (neither ordered before the
    other) is already present, the set is left as it is. *)
Fixpoint insert (x : T) (s : t) : t :=
  match s with
  | [] => [x]
  | y :: s' =>
      if comp x y then x :: y :: s'
      else if comp y x then y :: insert x s'
      else y :: s'
  end.

(** The set after a sequence of insertions, first to last. *)
Definition of_insertions (xs : list T) : t :=
  foldl (fun s x => insert x s) empty xs.

End Ordered.

End StdSet.

(** ** AudioGenerator: pending note-offs *)

Module AudioGenerator.

Record NoteOff : Type := {
  pitch : Z;   (* int *)
  frame : Z    (* size_t *)
}.

(** [NoteOff::Comparator::operator()] *)
Definition Comparator (n1 n2 : NoteOff) : bool := frame n1 <? frame n2.

(** [typedef std::set<NoteOff, NoteOff::Comparator> NoteOffSet] *)
Definition NoteOffSet : Type := StdSet.t (T := NoteOff).

Definition NoteOffSet_insert (n : NoteOff) (s : NoteOffSet) : NoteOffSet :=
  StdSet.insert Comparator n s.

Definition NoteOffSet_of (ns : list NoteOff) : NoteOffSet :=
  StdSet.of_insertions Comparator ns.

Definition frame_lt (a b : NoteOff) : Prop := frame a < frame b.
Definition frame_le (a b : NoteOff) : Prop := frame a <= frame b.

End AudioGenerator.

(** ** RingBuffer<T> *)

Module RingBuffer.

Section Queue.

Context {T : Type}.

(** Modelled from the spec: [RingBuffer<T>] of [base/RingBuffer.h], which is
    not among the sources.  It is a fixed-capacity FIFO with operations
    [getWriteSpace], [write], [getReadSpace], [peek], [read] and [skip];
    [readSpace] is the number of frames written and not yet read, and one
    storage slot is reserved, so that a buffer made for [n] frames has
    [writeSpace = n - readSpace].  The frames held are kept oldest first;
    every operation moves at most as many frames as are available and
    reports how many it moved. *)
Record t : Type := {
  rb_size : Z;
  rb_data : list T
}.

(** Modelled from the spec: the constructor [RingBuffer (n)], an empty
    buffer into which [n] frames can be written. *)
Definition make (n : Z) : t := {| rb_size := n; rb_data := [] |}.

(** Modelled from the spec: [getReadSpace], the frames written and not yet
    read. *)
Definition getReadSpace (rb : t) : Z := Z.of_nat (length (rb_data rb)).

(** Modelled from the spec: [getWriteSpace], the room left. *)
Definition getWriteSpace (rb : t) : Z := rb_size rb - getReadSpace rb.

(** Modelled from the spec: [write (source, n)] appends the first [n] frames
    of [source], or as many as there is room for, and returns their number. *)
Definition write (rb : t) (source : list T) (n : Z) : t * Z :=
  let n := Z.min n (getWriteSpace rb) in
  ({| rb_size := rb_size rb;
      rb_data := rb_data rb ++ take (Z.to_nat n) source |}, n).

(** Modelled from the spec: [peek (destination, n)] yields the oldest [n]
    frames, or as many as are held, and keeps them in the buffer. *)
Definition peek (rb : t) (n : Z) : list T * Z :=
  let n := Z.min n (getReadSpace rb) in
  (take (Z.to_nat n) (rb_data rb), n).

(** Modelled from the spec: [skip (n)] advances the read position by [n]
    frames, or by as many as are held. *)
Definition skip (rb : t) (n : Z) : t * Z :=
  let n := Z.min n (getReadSpace rb) in
  ({| rb_size := rb_size rb; rb_data := drop (Z.to_nat n) (rb_data rb) |}, n).

(** Modelled from the spec: [read (destination, n)] yields the oldest [n]
    frames, or as many as are held, and removes them. *)
Definition read (rb : t) (n : Z) : list T * t * Z :=
  let n := Z.min n (getReadSpace rb) in
  (take (Z.to_nat n) (rb_data rb),
   {| rb_size := rb_size rb; rb_data := drop (Z.to_nat n) (rb_data rb) |}, n).

(** The frames held never exceed the size the buffer was made for. *)
Definition ok (rb : t) : Prop := 0 <= getWriteSpace rb.

End Queue.

Arguments t : clear implicits.

End RingBuffer.

(** ** Double arithmetic and the signal-processing libraries *)

(** The operations on [double] that the stretcher uses, and the conversions
    of [size_t] and [int] operands to [double]. *)
Class Arith (D : Type) : Type := {
  d_zero : D;
  d_add : D -> D -> D;
  d_mul : D -> D -> D;
  d_div : D -> D -> D;
  d_sqrt : D -> D;
  d_cos : D -> D;
  d_sin : D -> D;
  d_atan2 : D -> D -> D;
  d_of_size_t : Z -> D;
  d_of_int : Z -> D
}.

(** [Window<double>::cut] and the two FFTW plans, each working on arrays of
    the size it was made for. *)
Class Dsp (D WindowType : Type) : Type := {
  window_cut : WindowType -> Z -> list D -> list D;
  window_cut_length : forall ty n buf, length (window_cut ty n buf) = length buf;
  fftw_dft_1d : Z -> list (D * D) -> list (D * D);
  fftw_dft_c2r_1d : Z -> list (D * D) -> list D;
  fftw_dft_c2r_1d_length : forall n freq,
    length (fftw_dft_c2r_1d n freq) = Z.to_nat n
}.

(** ** IntegerTimeStretcher *)

Module IntegerTimeStretcher.

Import RingBuffer.

Section Stretcher.

Context {D WindowType : Type} `{Arith D} `{Dsp D WindowType}.

Record state : Type := {
  m_ratio : Z;
  m_n1 : Z;
  m_n2 : Z;
  m_wlen : Z;
  m_window : WindowType;
  m_inbuf : RingBuffer.t D;
  m_outbuf : RingBuffer.t D;
  m_mashbuf : list D
}.

Definition get (a : list D) (i : nat) : D := arr_get d_zero a i.

(** [new double[n]]: [n] entries of indeterminate content [junk]. *)
Definition new_array (junk : nat -> D) (n : Z) : list D :=
  map junk (seq 0 (Z.to_nat n)).

(** [for (int i = 0; i < m_wlen; ++i) m_mashbuf[i] = 0.0;]  The counter is
    an [int] compared with the [size_t] window length, so it reaches every
    index only when the window has at most [INT_MAX] entries.  For a longer
    window the increment at [INT_MAX] overflows, which the language leaves
    undefined: the loop of the model ends there, with the entries from
    [INT_MAX + 1] on as they were allocated, and what is proved of the
    cleared array assumes [window_fits_int]. *)
Definition clear_mashbuf (wlen : Z) (mash : list D) : list D :=
  for_loop 0 (Z.to_nat (Z.min wlen (CInt.max + 1)))
    (fun i mash => <[i := d_zero]> mash) mash.

(** The window lengths for which the clearing loop of the constructor runs
    to its end without overflow of its counter. *)
Definition window_fits_int (wlen : Z) : Prop := wlen <= CInt.max.

(** The constructor.  Members are initialised in the order of the
    initialiser list: [m_n2] from [m_n1], [m_wlen] from [m_n2], then the two
    ring buffers; the body allocates [m_mashbuf] and clears it entry by
    entry.  The work arrays [m_time], [m_freq] and [m_dbuf] are filled
    afresh for every block before they are read, so they appear as local
    values of [process] and [processBlock]. *)
Definition IntegerTimeStretcher (ratio maxProcessInputBlockSize inputIncrement
    windowSize : Z) (windowType : WindowType) (junk : nat -> D) : state :=
  let n1 := inputIncrement in
  let n2 := SizeT.mul n1 ratio in
  let wlen := Z.max windowSize (SizeT.mul n2 2) in
  {| m_ratio := ratio;
     m_n1 := n1;
     m_n2 := n2;
     m_wlen := wlen;
     m_window := windowType;
     m_inbuf := RingBuffer.make wlen;
     m_outbuf := RingBuffer.make (SizeT.mul maxProcessInputBlockSize ratio);
     m_mashbuf := clear_mashbuf wlen (new_array junk wlen) |}.

(** Modelled from the spec: the accessors declared in
    [IntegerTimeStretcher.h], which is not among the sources.
    [getWindowSize] is the window length W and [getInputIncrement] the
    analysis hop n1 that the constructor receives as [inputIncrement]. *)
Definition getWindowSize (s : state) : Z := m_wlen s.
Definition getInputIncrement (s : state) : Z := m_n1 s.

Definition getProcessingLatency (s : state) : Z :=
  SizeT.sub (getWindowSize s) (getInputIncrement s).

(** *** processBlock *)


(** [int div = m_wlen / m_n2; if (div > 1) div /= 2;], under
    [block_div_defined]. *)
Definition block_div (s : state) : Z :=
  let div := CInt.of_Z (SizeT.div (m_wlen s) (m_n2 s)) in
  if 1 <? div then CInt.div div 2 else div.

Definition half (s : state) : nat := Z.to_nat (SizeT.div (m_wlen s) 2).

(** The first loop: exchange the two halves of [buf]. *)
Definition swap_halves (s : state) (buf : list D) : list D :=
  for_loop 0 (half s) (fun i b =>
    let temp := get b i in
    let b := <[i := get b (i + half s)]> b in
    <[(i + half s)%nat := temp]> b) buf.

(** [m_time[i] = (buf[i], 0.0)] for every [i < m_wlen]. *)
Definition load_time (s : state) (buf : list D) : list (D * D) :=
  map (fun i => (get buf i, d_zero)) (seq 0 (Z.to_nat (m_wlen s))).

(** The loop over the bins: keep the magnitude, multiply the phase. *)
Definition scale_phases (s : state) (freq : list (D * D)) : list (D * D) :=
  for_loop 0 (Z.to_nat (m_wlen s)) (fun i f =>
    let '(re, im) := arr_get (d_zero, d_zero) f i in
    let mag := d_sqrt (d_add (d_mul re re) (d_mul im im)) in
    let phase := d_atan2 im re in
    let phase := d_mul phase (d_of_size_t (m_ratio s)) in
    let real := d_mul mag (d_cos phase) in
    let imag := d_mul mag (d_sin phase) in
    <[i := (real, imag)]> f) freq.

(** The loop after the inverse transform: exchange the halves again,
    dividing by [m_wlen]. *)
Definition unswap_halves (s : state) (buf : list D) : list D :=
  for_loop 0 (half s) (fun i b =>
    let temp := d_div (get b i) (d_of_size_t (m_wlen s)) in
    let b := <[i := d_div (get b (i + half s)) (d_of_size_t (m_wlen s))]> b in
    <[(i + half s)%nat := temp]> b) buf.

(** [buf] as it stands after the second [m_window->cut (buf)].  The inverse
    plan writes into [m_dbuf], which is the array [process] passes as
    [buf]. *)
Definition synthesis_frame (s : state) (buf : list D) : list D :=
  let buf := window_cut (m_window s) (m_wlen s) buf in
  let buf := swap_halves s buf in
  let time := load_time s buf in
  let freq := fftw_dft_1d (m_wlen s) time in
  let freq := scale_phases s freq in
  let buf := fftw_dft_c2r_1d (m_wlen s) freq in
  let buf := unswap_halves s buf in
  window_cut (m_window s) (m_wlen s) buf.

(** [for (i = 0; i < m_wlen; ++i) buf[i] /= div;] *)
Definition normalise (s : state) (buf : list D) : list D :=
  for_loop 0 (Z.to_nat (m_wlen s)) (fun i b =>
    <[i := d_div (get b i) (d_of_int (block_div s))]> b) buf.

(** [for (i = 0; i < m_wlen; ++i) out[i] += buf[i];] *)
Definition overlap_add (s : state) (buf out : list D) : list D :=
  for_loop 0 (Z.to_nat (m_wlen s)) (fun i o =>
    <[i := d_add (get o i) (get buf i)]> o) out.

(** [processBlock (buf, out)]: the new contents of [buf] and of [out]. *)
Definition processBlock (s : state) (buf out : list D) : list D * list D :=
  let buf := synthesis_frame s buf in
  let buf := normalise s buf in
  (buf, overlap_add s buf out).

(** *** process *)

(** The condition of the inner [while]. *)
Definition block_ready (s : state) : bool :=
  (m_wlen s <=? getReadSpace (m_inbuf s)) &&
  (m_n2 s <=? getWriteSpace (m_outbuf s)).

(** The two loops that move [m_mashbuf] left by [m_n2] and clear its tail. *)
Definition shift_mashbuf (s : state) (mash : list D) : list D :=
  let keep := Z.to_nat (SizeT.sub (m_wlen s) (m_n2 s)) in
  let mash :=
    for_loop 0 keep (fun i m => <[i := get m (i + Z.to_nat (m_n2 s))]> m) mash in
  for_loop keep (Z.to_nat (m_wlen s) - keep) (fun i m => <[i := d_zero]> m) mash.

(** One pass through the body of the inner [while]. *)
Definition process_one_block (s : state) : state :=
  let '(dbuf, got) := peek (m_inbuf s) (m_wlen s) in
  let '(_, mash) := processBlock s dbuf (m_mashbuf s) in
  let '(inbuf, _) := skip (m_inbuf s) (m_n1 s) in
  let '(outbuf, _) := write (m_outbuf s) mash (m_n2 s) in
  {| m_ratio := m_ratio s;
     m_n1 := m_n1 s;
     m_n2 := m_n2 s;
     m_wlen := m_wlen s;
     m_window := m_window s;
     m_inbuf := inbuf;
     m_outbuf := outbuf;
     m_mashbuf := shift_mashbuf s mash |}.

(** The inner [while]; [None] when the fuel does not suffice. *)
Fixpoint process_blocks (fuel : nat) (s : state) : option state :=
  match fuel with
  | O => None
  | S fuel' =>
      if block_ready s then process_blocks fuel' (process_one_block s)
      else Some s
  end.

Definition set_inbuf (s : state) (rb : RingBuffer.t D) : state :=
  {| m_ratio := m_ratio s;
     m_n1 := m_n1 s;
     m_n2 := m_n2 s;
     m_wlen := m_wlen s;
     m_window := m_window s;
     m_inbuf := rb;
     m_outbuf := m_outbuf s;
     m_mashbuf := m_mashbuf s |}.

Definition set_outbuf (s : state) (rb : RingBuffer.t D) : state :=
  {| m_ratio := m_ratio s;
     m_n1 := m_n1 s;
     m_n2 := m_n2 s;
     m_wlen := m_wlen s;
     m_window := m_window s;
     m_inbuf := m_inbuf s;
     m_outbuf := rb;
     m_mashbuf := m_mashbuf s |}.

(** What one pass through the body of the outer [while] does. *)
Inductive outer_step : Type :=
| Break : outer_step
| Continue : state -> Z -> outer_step.

(** The body of the outer [while], entered with [consumed < samples];
    [None] when the inner loop runs out of fuel. *)
Definition feed (fuel : nat) (s : state) (input : list D) (samples consumed : Z)
  : option outer_step :=
  let writable := getWriteSpace (m_inbuf s) in
  let writable := Z.min writable (SizeT.sub samples consumed) in
  if writable =? 0 then Some Break
  else
    let '(inbuf, _) := write (m_inbuf s) (drop (Z.to_nat consumed) input) writable in
    let consumed := SizeT.add consumed writable in
    match process_blocks fuel (set_inbuf s inbuf) with
    | None => None
    | Some s' => Some (Continue s' consumed)
    end.

(** The outer [while]: the state and the value of [consumed] on exit. *)
Fixpoint feed_all (fuel inner : nat) (s : state) (input : list D)
    (samples consumed : Z) : option (state * Z) :=
  match fuel with
  | O => None
  | S fuel' =>
      if consumed <? samples then
        match feed inner s input samples consumed with
        | None => None
        | Some Break => Some (s, consumed)
        | Some (Continue s' consumed') =>
            feed_all fuel' inner s' input samples consumed'
        end
      else Some (s, consumed)
  end.

(** The part of [process] after the loops: hand out [samples * m_ratio]
    frames, zeros first when the output ring holds fewer. *)
Definition drain (s : state) (output : list D) (samples : Z) : state * list D :=
  let want := SizeT.mul samples (m_ratio s) in
  if getReadSpace (m_outbuf s) <? want then
    let fill := SizeT.sub want (getReadSpace (m_outbuf s)) in
    let output :=
      for_loop 0 (Z.to_nat fill) (fun i o => <[i := d_zero]> o) output in
    let '(frames, outbuf, _) := read (m_outbuf s) (getReadSpace (m_outbuf s)) in
    (set_outbuf s outbuf, arr_copy d_zero (Z.to_nat fill) frames output)
  else
    let '(frames, outbuf, _) := read (m_outbuf s) want in
    (set_outbuf s outbuf, arr_copy d_zero 0 frames output).

(** [process (input, output, samples)]: the stretcher afterwards and the
    contents of the caller's [output] array. *)
Definition process (fuel : nat) (s : state) (input output : list D) (samples : Z)
  : option (state * list D) :=
  match feed_all fuel fuel s input samples 0 with
  | None => None
  | Some (s', _) => Some (drain s' output samples)
  end.

(** *** The stretcher invariant *)

(** What the constructor sets up for a ratio and an input increment of at
    least one whose products fit [size_t], and what [process] keeps: the
    hops, the window length, the length of [m_mashbuf] and the fill of the
    two ring buffers. *)
Record wf (s : state) : Prop := {
  wf_ratio : 1 <= m_ratio s;
  wf_n1 : 1 <= m_n1 s;
  wf_n2 : m_n2 s = m_ratio s * m_n1 s;
  wf_wlen : 2 * m_n2 s <= m_wlen s < SizeT.modulus;
  wf_mashbuf : length (m_mashbuf s) = Z.to_nat (m_wlen s);
  wf_inbuf_size : rb_size (m_inbuf s) = m_wlen s;
  wf_inbuf : RingBuffer.ok (m_inbuf s);
  wf_outbuf_size : rb_size (m_outbuf s) < SizeT.modulus;
  wf_outbuf : RingBuffer.ok (m_outbuf s)
}.

(** [process] changes neither the hops, the ratio and the window nor the
    sizes of the ring buffers. *)
Definition same_params (s s' : state) : Prop :=
  m_ratio s' = m_ratio s /\ m_n1 s' = m_n1 s /\ m_n2 s' = m_n2 s /\
  m_wlen s' = m_wlen s /\ m_window s' = m_window s /\
  rb_size (m_inbuf s') = rb_size (m_inbuf s) /\
  rb_size (m_outbuf s') = rb_size (m_outbuf s).

(** Fuel beyond the window length and the number of samples suffices for
    both loops of [process]. *)
Definition enough_fuel (s : state) (samples : Z) : nat :=
  S (Z.to_nat (m_wlen s) `max` Z.to_nat samples).

End Stretcher.

End IntegerTimeStretcher.

(** ** Integer samples *)

(** An instance of the arithmetic and of the libraries over [Z], with which
    the model runs on concrete inputs: the window and the transforms leave
    the values as they are, so that a run shows where each frame goes. *)
Module IntegerSamples.

#[export] Instance arith : Arith Z := {|
  d_zero := 0;
  d_add := Z.add;
  d_mul := Z.mul;
  d_div := Z.div;
  d_sqrt := Z.sqrt;
  d_cos := fun _ => 1;
  d_sin := fun _ => 0;
  d_atan2 := fun _ _ => 0;
  d_of_size_t := fun z => z;
  d_of_int := fun z => z
|}.

Definition c2r (n : Z) (freq : list (Z * Z)) : list Z :=
  take (Z.to_nat n) (map fst freq ++ replicate (Z.to_nat n) 0).

#[export] Instance dsp : Dsp Z unit.
Proof.
  refine {| window_cut := fun _ _ buf => buf;
            fftw_dft_1d := fun _ time => time;
            fftw_dft_c2r_1d := c2r |}.
  - reflexivity.
  - intros n freq. unfold c2r.
    rewrite length_take, length_app, length_replicate. lia.
Defined.

Definition junk (i : nat) : Z := 7 + Z.of_nat i.

(** A stretcher by two with hop 1 and window 4, for blocks of up to 4. *)
Definition by_two : IntegerTimeStretcher.state :=
  IntegerTimeStretcher.IntegerTimeStretcher 2 4 1 4 tt junk.

(** The same stretcher with four frames waiting in its input ring. *)
Definition by_two_loaded : IntegerTimeStretcher.state :=
  IntegerTimeStretcher.set_inbuf by_two
    (RingBuffer.write (IntegerTimeStretcher.m_inbuf by_two) [10; 20; 30; 40] 4).1.

(** A stretcher with ratio 1, hop 3 and window 6, for blocks of up to 4;
    its output ring has room for 4 frames. *)
Definition hop_three : IntegerTimeStretcher.state :=
  IntegerTimeStretcher.IntegerTimeStretcher 1 4 3 6 tt junk.

(** One call of [process] after another, each with a block of four frames
    and an output array of four entries; the stretcher after the last. *)
Fixpoint process_blocks_of_four (s : IntegerTimeStretcher.state)
    (blocks : list (list Z)) : option IntegerTimeStretcher.state :=
  match blocks with
  | [] => Some s
  | input :: rest =>
      match IntegerTimeStretcher.process 10 s input (replicate 4 9) 4 with
      | Some (s', _) => process_blocks_of_four s' rest
      | None => None
      end
  end.

(** [hop_three] after three blocks. *)
Definition hop_three_after_three_blocks : IntegerTimeStretcher.state :=
  default hop_three
    (process_blocks_of_four hop_three [[1; 2; 3; 4]; [5; 6; 7; 8]; [9; 10; 11; 12]]).


(** A stretcher whose maximum block, 2, is less than its hop, 3. *)
Definition short_block : IntegerTimeStretcher.state :=
  IntegerTimeStretcher.IntegerTimeStretcher 1 2 3 6 tt junk.

(** [short_block] with five frames waiting in its input ring. *)
Definition short_block_loaded : IntegerTimeStretcher.state :=
  IntegerTimeStretcher.set_inbuf short_block
    (RingBuffer.write (IntegerTimeStretcher.m_inbuf short_block) [1; 2; 3; 4; 5] 5).1.

(** A stretcher with a window of odd length, 5. *)
Definition odd_window : IntegerTimeStretcher.state :=
  IntegerTimeStretcher.IntegerTimeStretcher 1 4 1 5 tt junk.

End IntegerSamples.
(** * Properties *)

(** ** Machine integers *)

Section SizeTFacts.

Import SizeT.

Lemma modulus_pos : 0 < modulus.
Proof. unfold modulus. lia. Qed.

Lemma wrap_small z : in_range z -> wrap z = z.
Proof. unfold in_range, wrap. intros Hz. now apply Z.mod_small. Qed.


Lemma add_small a b : in_range (a + b) -> add a b = a + b.
Proof. apply wrap_small. Qed.

Lemma sub_small a b : in_range (a - b) -> sub a b = a - b.
Proof. apply wrap_small. Qed.

Lemma mul_small a b : in_range (a * b) -> mul a b = a * b.
Proof. apply wrap_small. Qed.

End SizeTFacts.

Lemma of_Z_small z : - 2 ^ 31 <= z < 2 ^ 31 -> CInt.of_Z z = z.
Proof. intros Hz. unfold CInt.of_Z. rewrite Z.mod_small; lia. Qed.

(** ** Counted loops *)

Lemma for_loop_snoc {A : Type} (body : nat -> A -> A) n i a :
  for_loop i (S n) body a = body (i + n)%nat (for_loop i n body a).
Proof.
  revert i a. induction n as [|n IH]; intros i a.
  - simpl. now rewrite Nat.add_0_r.
  - change (for_loop i (S (S n)) body a)
      with (for_loop (S i) (S n) body (body i a)).
    rewrite IH. simpl. now rewrite Nat.add_succ_r.
Qed.

(** An invariant rule: [P k] holds of the array before the iteration with
    index [i + k]. *)
Lemma for_loop_ind {A : Type} (P : nat -> A -> Prop) (body : nat -> A -> A) i n a :
  P O a ->
  (forall k x, (k < n)%nat -> P k x -> P (S k) (body (i + k)%nat x)) ->
  P n (for_loop i n body a).
Proof.
  intros H0 Hstep. induction n as [|n IH].
  - exact H0.
  - rewrite for_loop_snoc. apply Hstep; [lia|]. apply IH.
    intros k x Hk. apply Hstep. lia.
Qed.

Section LoopFacts.

Context {A : Type} (dflt : A).

Lemma arr_get_lookup (a : list A) i x : a !! i = Some x -> arr_get dflt a i = x.
Proof. unfold arr_get. now intros ->. Qed.

Lemma lookup_arr_get (a : list A) i :
  (i < length a)%nat -> a !! i = Some (arr_get dflt a i).
Proof.
  intros Hi. destruct (lookup_lt_is_Some_2 a i Hi) as [x Hx].
  now rewrite (arr_get_lookup _ _ _ Hx).
Qed.

Lemma for_loop_insert_length (f : nat -> list A -> A) (g : nat -> nat) i n (a : list A) :
  length (for_loop i n (fun k d => <[g k := f k d]> d) a) = length a.
Proof.
  revert i a. induction n as [|n IH]; intros i a; simpl; [done|].
  now rewrite IH, length_insert.
Qed.

Lemma arr_copy_length off src dst : length (arr_copy dflt off src dst) = length dst.
Proof. apply for_loop_insert_length. Qed.

(** The loops of the stretcher all have the shape [a[k] = F(k, a)] where
    [F] reads only entries at or after [k]; [G k] is what [F] then yields. *)
Lemma for_loop_pointwise (F : nat -> list A -> A) (G : nat -> A) i n (a : list A) :
  (i + n <= length a)%nat ->
  (forall k x, (i <= k < i + n)%nat -> length x = length a ->
     (forall j, (k <= j)%nat -> x !! j = a !! j) -> F k x = G k) ->
  length (for_loop i n (fun k d => <[k := F k d]> d) a) = length a /\
  (forall j, (i <= j < i + n)%nat ->
     for_loop i n (fun k d => <[k := F k d]> d) a !! j = Some (G j)) /\
  (forall j, ~ (i <= j < i + n)%nat ->
     for_loop i n (fun k d => <[k := F k d]> d) a !! j = a !! j).
Proof.
  intros Hlen HF.
  apply (for_loop_ind
    (fun k x => length x = length a /\
       (forall j, (i <= j < i + k)%nat -> x !! j = Some (G j)) /\
       (forall j, ~ (i <= j < i + k)%nat -> x !! j = a !! j))).
  - split; [done|]. split; intros j Hj; [lia|done].
  - intros k x Hk (Hx & Hin & Hout).
    assert (HFk : F (i + k)%nat x = G (i + k)%nat).
    { apply HF; [lia|done|]. intros j Hle. apply Hout. lia. }
    rewrite HFk. split; [now rewrite length_insert|].
    split; intros j Hj.
    + destruct (decide (j = i + k)%nat) as [->|Hne].
      * apply list_lookup_insert_eq. lia.
      * rewrite list_lookup_insert_ne by lia. apply Hin. lia.
    + rewrite list_lookup_insert_ne by lia. apply Hout. lia.
Qed.

(** [for (k = i; k < i + n; ++k) a[k] = v;] *)
Lemma for_loop_fill (v : A) i n (a : list A) :
  (i + n <= length a)%nat ->
  for_loop i n (fun k d => <[k := v]> d) a
  = take i a ++ replicate n v ++ drop (i + n) a.
Proof.
  intros Hlen.
  destruct (for_loop_pointwise (fun _ _ => v) (fun _ => v) i n a Hlen)
    as (Hl & Hin & Hout); [done|].
  apply list_eq. intros j.
  destruct (decide (i <= j < i + n)%nat) as [Hj|Hj].
  - rewrite Hin by done.
    rewrite lookup_app_r by (rewrite length_take; lia).
    rewrite length_take, Nat.min_l by lia.
    rewrite lookup_app_l by (rewrite length_replicate; lia).
    symmetry. apply lookup_replicate_2. lia.
  - rewrite Hout by done. destruct (decide (j < i)%nat).
    + rewrite lookup_app_l by (rewrite length_take; lia).
      now rewrite lookup_take_lt by lia.
    + rewrite lookup_app_r by (rewrite length_take; lia).
      rewrite length_take, Nat.min_l by lia.
      rewrite lookup_app_r by (rewrite length_replicate; lia).
      rewrite length_replicate, lookup_drop. f_equal. lia.
Qed.

(** [for (k = 0; k < n; ++k) a[k] = a[k + s];] *)
Lemma for_loop_shift s n (a : list A) :
  (n + s <= length a)%nat ->
  for_loop 0 n (fun k d => <[k := arr_get dflt d (k + s)]> d) a
  = take n (drop s a) ++ drop n a.
Proof.
  intros Hlen.
  destruct (for_loop_pointwise (fun k d => arr_get dflt d (k + s)%nat)
              (fun k => arr_get dflt a (k + s)%nat) 0 n a) as (Hl & Hin & Hout); [lia| |].
  { intros k x Hk Hx Hj. unfold arr_get. now rewrite Hj by lia. }
  apply list_eq. intros j.
  destruct (decide (j < n)%nat) as [Hj|Hj].
  - rewrite Hin by lia.
    rewrite lookup_app_l by (rewrite length_take, length_drop; lia).
    rewrite lookup_take_lt by lia. rewrite lookup_drop.
    rewrite Nat.add_comm. symmetry. apply lookup_arr_get. lia.
  - rewrite Hout by lia.
    rewrite lookup_app_r by (rewrite length_take, length_drop; lia).
    rewrite length_take, length_drop, Nat.min_l by lia.
    rewrite lookup_drop. f_equal. lia.
Qed.

Lemma for_loop_reindex (off : nat) (f : nat -> A) n i (d : list A) :
  for_loop i n (fun k d0 => <[(off + k)%nat := f k]> d0) d
  = for_loop (off + i) n (fun k d0 => <[k := f (k - off)%nat]> d0) d.
Proof.
  revert i d. induction n as [|n IH]; intros i d; simpl; [done|].
  rewrite IH. replace (off + i - off)%nat with i by lia.
  now rewrite Nat.add_succ_r.
Qed.

Lemma arr_copy_spec off (src dst : list A) :
  (off + length src <= length dst)%nat ->
  arr_copy dflt off src dst = take off dst ++ src ++ drop (off + length src) dst.
Proof.
  intros Hlen. unfold arr_copy.
  rewrite (for_loop_reindex off (arr_get dflt src)), Nat.add_0_r.
  destruct (for_loop_pointwise (fun k _ => arr_get dflt src (k - off)%nat)
              (fun k => arr_get dflt src (k - off)%nat) off (length src) dst Hlen)
    as (Hl & Hin & Hout); [done|].
  apply list_eq. intros j.
  destruct (decide (off <= j < off + length src)%nat) as [Hj|Hj].
  - rewrite Hin by done.
    rewrite lookup_app_r by (rewrite length_take; lia).
    rewrite length_take, Nat.min_l by lia.
    rewrite lookup_app_l by lia. symmetry. apply lookup_arr_get. lia.
  - rewrite Hout by done. destruct (decide (j < off)%nat).
    + rewrite lookup_app_l by (rewrite length_take; lia).
      now rewrite lookup_take_lt by lia.
    + rewrite lookup_app_r by (rewrite length_take; lia).
      rewrite length_take, Nat.min_l by lia.
      rewrite lookup_app_r by lia.
      rewrite lookup_drop. f_equal. lia.
Qed.

End LoopFacts.

(** ** The ring buffer accessors are total *)

Section AccessorFacts.

Import PlaySource.

Context {RingBufferFloat : Type}.

Implicit Types (v : RingBufferVector RingBufferFloat)
  (rb : pointer (RingBufferVector RingBufferFloat))
  (s : AudioCallbackPlaySource RingBufferFloat).

Lemma at_index_in_range v c :
  0 <= c < size v -> at_index v c = Returns (mjoin (v !! Z.to_nat c)).
Proof.
  intros Hc. unfold at_index, size in *.
  replace (0 <=? c) with true by (symmetry; apply Z.leb_le; lia).
  replace (c <? Z.of_nat (length v)) with true by (symmetry; apply Z.ltb_lt; lia).
  simpl. destruct (v !! Z.to_nat c) as [p|] eqn:Hp; [done|].
  apply lookup_ge_None in Hp. lia.
Qed.

Lemma getWriteRingBuffer_checked s c :
  0 <= c -> getWriteRingBuffer s c = Returns (checked_at (m_writeBuffers s) c).
Proof.
  intros Hc. unfold getWriteRingBuffer, checked_at.
  destruct (m_writeBuffers s) as [v|]; simpl; [|done].
  destruct (c <? size v) eqn:Hlt; [|done].
  apply at_index_in_range. apply Z.ltb_lt in Hlt. lia.
Qed.

Lemma getReadRingBuffer_checked s c :
  0 <= c -> getReadRingBuffer s c = Returns (checked_at (m_readBuffers s) c).
Proof.
  intros Hc. unfold getReadRingBuffer, checked_at.
  destruct (m_readBuffers s) as [v|]; simpl; [|done].
  destruct (c <? size v) eqn:Hlt; [|done].
  apply at_index_in_range. apply Z.ltb_lt in Hlt. lia.
Qed.

Lemma checked_at_null rb c :
  (rb = null \/ exists v, rb = Some v /\ size v <= c) -> checked_at rb c = null.
Proof.
  intros [->|(v & -> & Hge)]; [done|]. unfold checked_at.
  replace (c <? size v) with false; [done|].
  symmetry. apply Z.ltb_ge. lia.
Qed.

Lemma checked_at_element rb v c p :
  rb = Some v -> 0 <= c < size v -> v !! Z.to_nat c = Some p -> checked_at rb c = p.
Proof.
  intros -> Hc Hp. unfold checked_at.
  replace (c <? size v) with true by (symmetry; apply Z.ltb_lt; lia).
  now rewrite Hp.
Qed.

End AccessorFacts.

(** ** Note-off sets *)

Section NoteOffFacts.

Import AudioGenerator.

Lemma In_insert {T : Type} (comp : T -> T -> bool) x y s :
  In y (StdSet.insert comp x s) -> y = x \/ In y s.
Proof.
  induction s as [|z s IH]; simpl.
  - intros [<-|[]]. now left.
  - destruct (comp x z); [|destruct (comp z x)]; simpl.
    + intros [<-|H]; [now left|now right].
    + intros [<-|H]; [right; now left|].
      destruct (IH H) as [->|H']; [now left|right; now right].
    + intros H. now right.
Qed.

Lemma Comparator_lt a b : Comparator a b = true <-> frame a < frame b.
Proof. unfold Comparator. apply Z.ltb_lt. Qed.

Lemma Comparator_ge a b : Comparator a b = false <-> frame b <= frame a.
Proof. unfold Comparator. apply Z.ltb_ge. Qed.

Lemma insert_sorted n s :
  StronglySorted frame_lt s -> StronglySorted frame_lt (NoteOffSet_insert n s).
Proof.
  unfold NoteOffSet_insert.
  induction s as [|y s IH]; intros Hs; simpl.
  - constructor; constructor.
  - apply StronglySorted_inv in Hs as [Hs Hy].
    destruct (Comparator n y) eqn:Hny.
    + apply Comparator_lt in Hny. constructor.
      * now constructor.
      * constructor; [exact Hny|].
        eapply Forall_impl; [exact Hy|]. unfold frame_lt. simpl. intros; lia.
    + destruct (Comparator y n) eqn:Hyn.
      * apply Comparator_lt in Hyn. constructor; [now apply IH|].
        apply Forall_forall. intros z Hz. apply list_elem_of_In in Hz.
        apply In_insert in Hz as [->|Hz]; [exact Hyn|].
        rewrite Forall_forall in Hy. now apply Hy, list_elem_of_In.
      * now constructor.
Qed.

Lemma of_insertions_sorted ns : StronglySorted frame_lt (NoteOffSet_of ns).
Proof.
  unfold NoteOffSet_of, StdSet.of_insertions.
  assert (Hgen : forall s, StronglySorted frame_lt s ->
    StronglySorted frame_lt (foldl (fun s x => StdSet.insert Comparator x s) s ns)).
  { induction ns as [|n ns IH]; intros s Hs; simpl; [done|].
    apply IH. now apply insert_sorted. }
  apply Hgen. constructor.
Qed.

Lemma sorted_lt_le s : StronglySorted frame_lt s -> StronglySorted frame_le s.
Proof.
  induction 1 as [|a s Hs IH Ha]; constructor; [done|].
  eapply Forall_impl; [exact Ha|]. unfold frame_lt, frame_le. simpl. intros; lia.
Qed.

Lemma sorted_frames_NoDup s : StronglySorted frame_lt s -> NoDup (map frame s).
Proof.
  induction 1 as [|a s Hs IH Ha]; simpl; constructor; [|done].
  rewrite list_elem_of_In, in_map_iff. intros (b & Hb & Hin).
  rewrite Forall_forall in Ha. apply list_elem_of_In in Hin.
  specialize (Ha b Hin). unfold frame_lt in Ha. lia.
Qed.

(** Inserting a note-off whose frame is already present changes nothing. *)
Lemma insert_same_frame a b s :
  StronglySorted frame_lt s -> In a s -> frame b = frame a ->
  NoteOffSet_insert b s = s.
Proof.
  unfold NoteOffSet_insert.
  induction s as [|y s IH]; intros Hs Hin Hfr; [destruct Hin|].
  apply StronglySorted_inv in Hs as [Hs Hy]. simpl.
  destruct Hin as [->|Hin].
  - replace (Comparator b a) with false by (symmetry; apply Comparator_ge; lia).
    replace (Comparator a b) with false by (symmetry; apply Comparator_ge; lia).
    done.
  - rewrite Forall_forall in Hy. pose proof (Hin' := Hin).
    apply list_elem_of_In in Hin'. specialize (Hy a Hin'). unfold frame_lt in Hy.
    replace (Comparator b y) with false by (symmetry; apply Comparator_ge; lia).
    replace (Comparator y b) with true by (symmetry; apply Comparator_lt; lia).
    f_equal. now apply IH.
Qed.

Lemma insert_keeps n m s : In m s -> In m (NoteOffSet_insert n s).
Proof.
  unfold NoteOffSet_insert. induction s as [|y s IH]; simpl; [tauto|].
  intros Hm. destruct (Comparator n y); [|destruct (Comparator y n)]; simpl.
  - now right.
  - destruct Hm as [->|Hm]; [now left|right; now apply IH].
  - exact Hm.
Qed.

(** After an insertion the set holds a note-off at the inserted frame. *)
Lemma insert_frame_present n s : In (frame n) (map frame (NoteOffSet_insert n s)).
Proof.
  unfold NoteOffSet_insert. induction s as [|y s IH]; simpl; [now left|].
  destruct (Comparator n y) eqn:Hny; [|destruct (Comparator y n) eqn:Hyn]; simpl.
  - now left.
  - now right.
  - left. apply Comparator_ge in Hny. apply Comparator_ge in Hyn. lia.
Qed.

Lemma NoteOffSet_of_snoc ns n :
  NoteOffSet_of (ns ++ [n]) = NoteOffSet_insert n (NoteOffSet_of ns).
Proof. unfold NoteOffSet_of, StdSet.of_insertions. now rewrite foldl_app. Qed.

Lemma of_insertions_frames ns n :
  In n ns -> In (frame n) (map frame (NoteOffSet_of ns)).
Proof.
  induction ns as [|m ns IH] using rev_ind; [intros []|].
  rewrite NoteOffSet_of_snoc, in_app_iff. intros [Hn|[->|[]]].
  - specialize (IH Hn). apply in_map_iff in IH as (x & Hx & Hin).
    apply in_map_iff. exists x. split; [done|]. now apply insert_keeps.
  - apply insert_frame_present.
Qed.

End NoteOffFacts.

(** ** Ring buffers *)

Section RingBufferFacts.

Import RingBuffer.

Context {T : Type}.

Implicit Types (rb : RingBuffer.t T).

Lemma rb_make_ok n : 0 <= n -> ok (make (T := T) n).
Proof. unfold ok, getWriteSpace, getReadSpace, make. simpl. lia. Qed.

Lemma rb_getReadSpace_nonneg rb : 0 <= getReadSpace rb.
Proof. unfold getReadSpace. lia. Qed.

Lemma rb_write_ok rb source n : 0 <= n -> ok rb -> ok (write rb source n).1.
Proof.
  unfold ok, write. simpl. unfold getWriteSpace, getReadSpace. simpl.
  intros Hn Hok. rewrite length_app, length_take. lia.
Qed.

Lemma rb_skip_ok rb n : ok rb -> ok (skip rb n).1.
Proof.
  unfold ok, skip. simpl. unfold getWriteSpace, getReadSpace. simpl.
  intros Hok. rewrite length_drop. lia.
Qed.

Lemma rb_read_ok rb n : ok rb -> ok (read rb n).1.2.
Proof.
  unfold ok, read. simpl. unfold getWriteSpace, getReadSpace. simpl.
  intros Hok. rewrite length_drop. lia.
Qed.

End RingBufferFacts.

(** ** IntegerTimeStretcher: construction *)

Section StretcherFacts.

Import RingBuffer IntegerTimeStretcher.

Context {D WindowType : Type} `{Arith D} `{Dsp D WindowType}.

Implicit Types (s : state (D := D) (WindowType := WindowType)).

Lemma new_array_length (junk : nat -> D) n : length (new_array junk n) = Z.to_nat n.
Proof. unfold new_array. now rewrite length_map, length_seq. Qed.

Lemma clear_mashbuf_length wlen (mash : list D) :
  length (clear_mashbuf wlen mash) = length mash.
Proof.
  unfold clear_mashbuf.
  apply (for_loop_insert_length (fun _ _ => d_zero) (fun i => i)).
Qed.

Lemma constructor_mashbuf_length ratio B n1 ws (ty : WindowType) junk :
  length (m_mashbuf (IntegerTimeStretcher ratio B n1 ws ty junk))
  = Z.to_nat (m_wlen (IntegerTimeStretcher ratio B n1 ws ty junk)).
Proof. simpl. now rewrite clear_mashbuf_length, new_array_length. Qed.

(** For a window within [int] the loop of the constructor clears every
    entry of [m_mashbuf]. *)
Lemma constructor_mashbuf ratio B n1 ws (ty : WindowType) junk :
  window_fits_int (m_wlen (IntegerTimeStretcher ratio B n1 ws ty junk)) ->
  m_mashbuf (IntegerTimeStretcher ratio B n1 ws ty junk)
  = replicate (Z.to_nat (m_wlen (IntegerTimeStretcher ratio B n1 ws ty junk))) d_zero.
Proof.
  unfold window_fits_int. simpl. intros Hfit. unfold clear_mashbuf.
  rewrite Z.min_l by lia.
  rewrite for_loop_fill by (rewrite new_array_length; lia).
  rewrite take_0, drop_ge by (rewrite new_array_length; lia).
  simpl. now rewrite app_nil_r.
Qed.

Lemma constructor_wf ratio B n1 ws (ty : WindowType) junk :
  1 <= ratio -> 1 <= n1 -> SizeT.in_range ws -> SizeT.in_range B ->
  2 * (ratio * n1) < SizeT.modulus -> B * ratio < SizeT.modulus ->
  wf (IntegerTimeStretcher ratio B n1 ws ty junk).
Proof.
  intros Hr Hn Hws HB Hov HovB.
  assert (Hn2 : SizeT.mul n1 ratio = ratio * n1).
  { rewrite mul_small; [lia|]. unfold SizeT.in_range. nia. }
  assert (Hw : SizeT.mul (ratio * n1) 2 = 2 * (ratio * n1)).
  { rewrite mul_small; [lia|]. unfold SizeT.in_range. nia. }
  split.
  - done.
  - done.
  - simpl. exact Hn2.
  - simpl. rewrite Hn2, Hw. unfold SizeT.in_range in Hws. lia.
  - apply constructor_mashbuf_length.
  - done.
  - simpl. apply rb_make_ok. rewrite Hn2, Hw. nia.
  - simpl. apply Z.mod_pos_bound, modulus_pos.
  - simpl. apply rb_make_ok. apply Z.mod_pos_bound, modulus_pos.
Qed.

(** ** IntegerTimeStretcher: one block *)

Lemma half_loop_length s (f : nat -> list D -> D) (g : nat -> list D -> D) n buf :
  length (for_loop 0 n (fun i b =>
            let temp := g i b in
            let b := <[i := f i b]> b in
            <[(i + half s)%nat := temp]> b) buf) = length buf.
Proof.
  apply (for_loop_ind (fun _ x => length x = length buf)); [done|].
  intros k x _ Hx. simpl. now rewrite !length_insert.
Qed.

Lemma unswap_halves_length s buf : length (unswap_halves s buf) = length buf.
Proof.
  unfold unswap_halves.
  apply (half_loop_length s
    (fun i b => d_div (get b (i + half s)) (d_of_size_t (m_wlen s)))
    (fun i b => d_div (get b i) (d_of_size_t (m_wlen s)))).
Qed.

Lemma synthesis_frame_length s buf :
  length (synthesis_frame s buf) = Z.to_nat (m_wlen s).
Proof.
  unfold synthesis_frame.
  now rewrite window_cut_length, unswap_halves_length, fftw_dft_c2r_1d_length.
Qed.

(** The normalising loop divides every entry of a full frame. *)
Lemma normalise_lookup s buf j :
  length buf = Z.to_nat (m_wlen s) -> (j < Z.to_nat (m_wlen s))%nat ->
  normalise s buf !! j = Some (d_div (get buf j) (d_of_int (block_div s))).
Proof.
  intros Hlen Hj. unfold normalise.
  destruct (for_loop_pointwise
    (fun i b => d_div (get b i) (d_of_int (block_div s)))
    (fun i => d_div (get buf i) (d_of_int (block_div s)))
    0 (Z.to_nat (m_wlen s)) buf) as (_ & Hin & _); [lia| |].
  - intros k x Hk Hx Hsame. unfold get, arr_get. now rewrite Hsame by lia.
  - apply Hin. lia.
Qed.

Lemma normalise_length s buf : length (normalise s buf) = length buf.
Proof.
  unfold normalise.
  apply (for_loop_insert_length
    (fun i b => d_div (get b i) (d_of_int (block_div s))) (fun i => i)).
Qed.

Lemma overlap_add_length s buf out : length (overlap_add s buf out) = length out.
Proof.
  unfold overlap_add.
  apply (for_loop_insert_length (fun i o => d_add (get o i) (get buf i)) (fun i => i)).
Qed.

Lemma overlap_add_lookup s buf out j :
  length out = Z.to_nat (m_wlen s) -> (j < Z.to_nat (m_wlen s))%nat ->
  overlap_add s buf out !! j = Some (d_add (get out j) (get buf j)).
Proof.
  intros Hlen Hj. unfold overlap_add.
  destruct (for_loop_pointwise
    (fun i o => d_add (get o i) (get buf i))
    (fun i => d_add (get out i) (get buf i))
    0 (Z.to_nat (m_wlen s)) out) as (_ & Hin & _); [lia| |].
  - intros k x Hk Hx Hsame. unfold get, arr_get. now rewrite Hsame by lia.
  - apply Hin. lia.
Qed.

Lemma processBlock_out_length s buf out :
  length (processBlock s buf out).2 = length out.
Proof. unfold processBlock. simpl. apply overlap_add_length. Qed.

(** With a window of at least two synthesis hops the divisor is half the
    number of hops per window. *)
Lemma block_div_halved s :
  0 < m_n2 s -> 2 * m_n2 s <= m_wlen s -> m_wlen s / m_n2 s < 2 ^ 31 ->
  block_div s = (m_wlen s / m_n2 s) / 2 /\ 1 <= block_div s.
Proof.
  intros Hn2 Hw Hint. unfold block_div, SizeT.div.
  assert (Hq : 2 <= m_wlen s / m_n2 s).
  { apply Z.div_le_lower_bound; lia. }
  rewrite of_Z_small by lia.
  replace (1 <? m_wlen s / m_n2 s) with true by (symmetry; apply Z.ltb_lt; lia).
  unfold CInt.div. rewrite Z.quot_div_nonneg by lia.
  split; [done|]. apply Z.div_le_lower_bound; lia.
Qed.

Lemma block_ready_iff s :
  block_ready s = true <->
  m_wlen s <= getReadSpace (m_inbuf s) /\ m_n2 s <= getWriteSpace (m_outbuf s).
Proof. unfold block_ready. rewrite andb_true_iff, !Z.leb_le. tauto. Qed.

(** The two loops at the end of the inner body: everything moves left by
    [m_n2], and the last [m_n2] entries become zero. *)
Lemma shift_mashbuf_spec s mash :
  0 <= m_n2 s <= m_wlen s -> m_wlen s < SizeT.modulus ->
  length mash = Z.to_nat (m_wlen s) ->
  shift_mashbuf s mash
  = drop (Z.to_nat (m_n2 s)) mash ++ replicate (Z.to_nat (m_n2 s)) d_zero.
Proof.
  intros Hn2 Hw Hlen. unfold shift_mashbuf.
  rewrite sub_small by (unfold SizeT.in_range; lia).
  set (keep := Z.to_nat (m_wlen s - m_n2 s)).
  set (n2 := Z.to_nat (m_n2 s)).
  assert (Hk : (keep + n2 = length mash)%nat) by (subst keep n2; lia).
  unfold get. rewrite for_loop_shift by lia.
  rewrite (take_ge (drop n2 mash)) by (rewrite length_drop; lia).
  rewrite for_loop_fill by (rewrite length_app, !length_drop; lia).
  rewrite take_app_length' by (rewrite length_drop; lia).
  rewrite (drop_ge (drop n2 mash ++ drop keep mash))
    by (rewrite length_app, !length_drop; lia).
  rewrite app_nil_r. do 2 f_equal. lia.
Qed.

(** One pass through the inner body, in closed form. *)
Lemma process_one_block_spec s :
  wf s -> block_ready s = true ->
  let frame := take (Z.to_nat (m_wlen s)) (rb_data (m_inbuf s)) in
  let mash := (processBlock s frame (m_mashbuf s)).2 in
  peek (m_inbuf s) (m_wlen s) = (frame, m_wlen s) /\
  rb_data (m_inbuf (process_one_block s))
    = drop (Z.to_nat (m_n1 s)) (rb_data (m_inbuf s)) /\
  getReadSpace (m_inbuf (process_one_block s))
    = getReadSpace (m_inbuf s) - m_n1 s /\
  rb_data (m_outbuf (process_one_block s))
    = rb_data (m_outbuf s) ++ take (Z.to_nat (m_n2 s)) mash /\
  getReadSpace (m_outbuf (process_one_block s))
    = getReadSpace (m_outbuf s) + m_n2 s /\
  m_mashbuf (process_one_block s)
    = drop (Z.to_nat (m_n2 s)) mash ++ replicate (Z.to_nat (m_n2 s)) d_zero.
Proof.
  intros Hwf Hready. destruct Hwf as [Hr Hn1 Hn2 Hw Hm His Hi Hos Ho].
  apply block_ready_iff in Hready as [Hin Hout].
  assert (Hn12 : m_n1 s <= m_n2 s) by nia.
  intros frame mash.
  assert (Hmash : length mash = Z.to_nat (m_wlen s)).
  { subst mash. now rewrite processBlock_out_length. }
  assert (Hpeek : peek (m_inbuf s) (m_wlen s) = (frame, m_wlen s)).
  { unfold peek. rewrite Z.min_l by lia. done. }
  unfold process_one_block. rewrite Hpeek. fold mash.
  destruct (processBlock s frame (m_mashbuf s)) as [buf' mash'] eqn:Hpb.
  simpl in mash. subst mash. unfold skip, write. simpl.
  unfold getReadSpace in *. simpl.
  rewrite !Z.min_l by lia.
  split; [done|]. split; [done|]. split.
  { rewrite length_drop. lia. }
  split; [done|]. split.
  { rewrite length_app, length_take. lia. }
  apply shift_mashbuf_spec; [lia|lia|done].
Qed.

Lemma process_one_block_fields s :
  m_ratio (process_one_block s) = m_ratio s /\
  m_n1 (process_one_block s) = m_n1 s /\
  m_n2 (process_one_block s) = m_n2 s /\
  m_wlen (process_one_block s) = m_wlen s /\
  m_window (process_one_block s) = m_window s /\
  rb_size (m_inbuf (process_one_block s)) = rb_size (m_inbuf s) /\
  rb_size (m_outbuf (process_one_block s)) = rb_size (m_outbuf s).
Proof.
  unfold process_one_block, peek, skip, write.
  destruct (processBlock _ _ _). simpl. tauto.
Qed.

Lemma process_one_block_wf s :
  wf s -> block_ready s = true -> wf (process_one_block s).
Proof.
  intros Hwf Hready.
  destruct (process_one_block_spec s Hwf Hready) as (_ & Hin & Hrs & Hout & Hos & Hmash).
  destruct (process_one_block_fields s) as (Fr & F1 & F2 & Fw & _ & Fi & Fo).
  pose proof (proj1 (block_ready_iff s) Hready) as [Hrd Hwr].
  destruct Hwf as [Hr Hn1 Hn2 Hw Hm His Hi Hosz Ho].
  split; rewrite ?Fr, ?F1, ?F2, ?Fw, ?Fi, ?Fo; try done.
  - rewrite Hmash, length_app, length_drop, length_replicate.
    rewrite processBlock_out_length. nia.
  - unfold RingBuffer.ok, getWriteSpace in *. rewrite Fi, Hrs. nia.
  - unfold RingBuffer.ok, getWriteSpace in *. rewrite Fo, Hos. lia.
Qed.

(** ** IntegerTimeStretcher: the loops of process *)

Lemma same_params_refl s : same_params s s.
Proof. unfold same_params. tauto. Qed.

Lemma same_params_trans s1 s2 s3 :
  same_params s1 s2 -> same_params s2 s3 -> same_params s1 s3.
Proof. unfold same_params. intuition congruence. Qed.

Lemma process_one_block_same_params s : same_params s (process_one_block s).
Proof. unfold same_params. pose proof (process_one_block_fields s). tauto. Qed.

Lemma process_blocks_unfold fuel s :
  process_blocks (S fuel) s
  = if block_ready s then process_blocks fuel (process_one_block s) else Some s.
Proof. reflexivity. Qed.

(** The inner loop ends: every pass takes at least one frame out of the
    input ring, so fuel beyond the fill of that ring suffices. *)
Lemma process_blocks_terminates fuel s :
  wf s -> (length (rb_data (m_inbuf s)) < fuel)%nat ->
  exists s', process_blocks fuel s = Some s' /\ wf s' /\ same_params s s' /\
             block_ready s' = false.
Proof.
  revert s. induction fuel as [|fuel IH]; intros s Hwf Hfuel; [lia|].
  simpl. destruct (block_ready s) eqn:Hready.
  - destruct (process_one_block_spec s Hwf Hready) as (_ & _ & Hrs & _).
    pose proof (proj1 (block_ready_iff s) Hready) as [Hrd _].
    destruct (IH (process_one_block s)) as (s' & Hrun & Hwf' & Hsame & Hstop).
    + now apply process_one_block_wf.
    + unfold getReadSpace in Hrs. pose proof (wf_n1 s Hwf).
      pose proof (wf_wlen s Hwf). lia.
    + exists s'. split; [done|]. split; [done|]. split; [|done].
      eapply same_params_trans; [apply process_one_block_same_params|done].
  - exists s. split; [done|]. split; [done|]. split; [apply same_params_refl|done].
Qed.

Lemma set_inbuf_write_wf s source n :
  wf s -> 0 <= n -> wf (set_inbuf s (write (m_inbuf s) source n).1).
Proof.
  intros [Hr Hn1 Hn2 Hw Hm His Hi Hos Ho] Hn.
  split; simpl; try done. now apply rb_write_ok.
Qed.

(** One pass through the outer body: either the input ring is full and the
    loop is left at once, or frames are taken from [input] and [consumed]
    grows by their number. *)
Lemma feed_spec inner s input samples consumed :
  wf s -> SizeT.in_range samples -> 0 <= consumed < samples ->
  (Z.to_nat (m_wlen s) < inner)%nat ->
  (getWriteSpace (m_inbuf s) = 0 /\
   feed inner s input samples consumed = Some Break)
  \/
  (0 < getWriteSpace (m_inbuf s) /\
   exists s',
     feed inner s input samples consumed
     = Some (Continue s'
               (consumed + Z.min (getWriteSpace (m_inbuf s)) (samples - consumed))) /\
     wf s' /\ same_params s s' /\ block_ready s' = false).
Proof.
  intros Hwf Hs Hc Hinner. unfold feed.
  pose proof (wf_inbuf s Hwf) as Hok. unfold RingBuffer.ok in Hok.
  unfold SizeT.in_range in Hs.
  rewrite sub_small by (unfold SizeT.in_range; lia).
  set (writable := Z.min (getWriteSpace (m_inbuf s)) (samples - consumed)).
  destruct (writable =? 0) eqn:Hz.
  - left. apply Z.eqb_eq in Hz. split; [lia|done].
  - right. apply Z.eqb_neq in Hz. split; [lia|].
    rewrite add_small by (unfold SizeT.in_range; lia).
    pose proof (set_inbuf_write_wf s (drop (Z.to_nat consumed) input) writable Hwf)
      as Hwf1.
    destruct (write (m_inbuf s) (drop (Z.to_nat consumed) input) writable)
      as [inbuf n] eqn:Hwr.
    simpl in Hwf1. specialize (Hwf1 ltac:(lia)).
    destruct (process_blocks_terminates inner (set_inbuf s inbuf) Hwf1)
      as (s' & Hrun & Hwf' & Hsame & Hstop).
    + pose proof (wf_inbuf _ Hwf1) as Hok1.
      pose proof (wf_inbuf_size _ Hwf1) as Hsz1.
      unfold RingBuffer.ok, getWriteSpace, getReadSpace in Hok1.
      simpl in *. lia.
    + rewrite Hrun. exists s'. split; [done|]. split; [done|]. split; [|done].
      eapply same_params_trans; [|exact Hsame].
      unfold same_params. simpl.
      assert (rb_size inbuf = rb_size (m_inbuf s)).
      { unfold write in Hwr. now inversion Hwr. }
      tauto.
Qed.

(** The outer loop ends, with every frame of [input] taken or with a full
    input ring. *)
Lemma feed_all_terminates inner input samples fuel s consumed :
  wf s -> SizeT.in_range samples -> 0 <= consumed <= samples ->
  (Z.to_nat (m_wlen s) < inner)%nat ->
  (Z.to_nat (samples - consumed) < fuel)%nat ->
  exists s' consumed',
    feed_all fuel inner s input samples consumed = Some (s', consumed') /\
    wf s' /\ same_params s s' /\ consumed <= consumed' <= samples /\
    (consumed' < samples -> getWriteSpace (m_inbuf s') = 0).
Proof.
  revert s consumed.
  induction fuel as [|fuel IH]; intros s consumed Hwf Hs Hc Hinner Hfuel; [lia|].
  simpl. destruct (consumed <? samples) eqn:Hlt.
  - apply Z.ltb_lt in Hlt.
    destruct (feed_spec inner s input samples consumed Hwf Hs ltac:(lia) Hinner)
      as [[Hfull ->]|(Hroom & s1 & -> & Hwf1 & Hsame1 & _)].
    + exists s, consumed. split; [done|]. split; [done|].
      split; [apply same_params_refl|]. split; [lia|done].
    + set (consumed1 :=
        consumed + Z.min (getWriteSpace (m_inbuf s)) (samples - consumed)).
      destruct (IH s1 consumed1 Hwf1 Hs) as (s' & c' & Hrun & Hwf' & Hsame & Hc' & Hend).
      * subst consumed1. lia.
      * destruct Hsame1 as (_ & _ & _ & -> & _). exact Hinner.
      * subst consumed1. lia.
      * exists s', c'. split; [done|]. split; [done|].
        split; [eapply same_params_trans; eassumption|].
        split; [subst consumed1; lia|done].
  - apply Z.ltb_ge in Hlt. exists s, consumed. split; [done|]. split; [done|].
    split; [apply same_params_refl|]. split; [lia|lia].
Qed.

(** ** IntegerTimeStretcher: handing out the output *)

(** [drain] overwrites the first [samples * m_ratio] entries of [output]
    and nothing else: zeros for the frames the output ring cannot supply,
    then the frames it holds, oldest first. *)
Lemma drain_spec s output samples :
  0 <= samples -> 0 <= m_ratio s -> samples * m_ratio s < SizeT.modulus ->
  (Z.to_nat (samples * m_ratio s) <= length output)%nat ->
  let want := Z.to_nat (samples * m_ratio s) in
  let ready := rb_data (m_outbuf s) in
  drain s output samples
  = (set_outbuf s {| rb_size := rb_size (m_outbuf s); rb_data := drop want ready |},
     replicate (want - length ready) d_zero ++ take want ready ++ drop want output).
Proof.
  intros Hs Hr Hov Hroom want ready. unfold drain.
  rewrite mul_small by (unfold SizeT.in_range; nia).
  unfold getReadSpace. fold ready.
  destruct (Z.of_nat (length ready) <? samples * m_ratio s) eqn:Hlt.
  - apply Z.ltb_lt in Hlt.
    rewrite sub_small by (unfold SizeT.in_range; lia).
    unfold read. unfold getReadSpace. fold ready.
    rewrite Z.min_id, Nat2Z.id, firstn_all, drop_all.
    replace (Z.to_nat (samples * m_ratio s - Z.of_nat (length ready)))
      with (want - length ready)%nat by (subst want; lia).
    rewrite for_loop_fill by lia. rewrite take_0. simpl.
    rewrite arr_copy_spec
      by (rewrite length_app, length_replicate, length_drop; lia).
    rewrite take_app_length' by (rewrite length_replicate; lia).
    rewrite drop_app_ge by (rewrite length_replicate; lia).
    rewrite length_replicate, drop_drop.
    rewrite (drop_ge ready) by lia.
    rewrite (take_ge ready) by lia.
    do 4 f_equal. lia.
  - apply Z.ltb_ge in Hlt.
    unfold read. unfold getReadSpace. fold ready.
    rewrite Z.min_l by lia. fold want.
    rewrite arr_copy_spec by (rewrite length_take; lia).
    rewrite take_0, length_take, Nat.min_l by lia.
    replace (want - length ready)%nat with O by lia. simpl. done.
Qed.

Lemma drain_wf s output samples :
  wf s -> wf (drain s output samples).1 /\ same_params s (drain s output samples).1.
Proof.
  intros [Hr Hn1 Hn2 Hw Hm His Hi Hos Ho]. unfold drain.
  destruct (getReadSpace (m_outbuf s) <? SizeT.mul samples (m_ratio s)).
  - pose proof (rb_read_ok (m_outbuf s) (getReadSpace (m_outbuf s)) Ho) as Hrd.
    unfold read in *. simpl in *. split; [split; done|].
    unfold same_params. simpl. tauto.
  - pose proof (rb_read_ok (m_outbuf s) (SizeT.mul samples (m_ratio s)) Ho) as Hrd.
    unfold read in *. simpl in *. split; [split; done|].
    unfold same_params. simpl. tauto.
Qed.

(** [process] returns, and keeps the invariant. *)
Lemma process_terminates fuel s input output samples :
  wf s -> SizeT.in_range samples ->
  (Z.to_nat (m_wlen s) < fuel)%nat -> (Z.to_nat samples < fuel)%nat ->
  exists s1 consumed,
    feed_all fuel fuel s input samples 0 = Some (s1, consumed) /\
    process fuel s input output samples = Some (drain s1 output samples) /\
    wf s1 /\ same_params s s1 /\ 0 <= consumed <= samples /\
    (consumed < samples -> getWriteSpace (m_inbuf s1) = 0).
Proof.
  intros Hwf Hs Hw Hf.
  destruct (feed_all_terminates fuel input samples fuel s 0 Hwf Hs)
    as (s1 & c & Hrun & Hwf1 & Hsame & Hc & Hend).
  - unfold SizeT.in_range in Hs. lia.
  - exact Hw.
  - rewrite Z.sub_0_r. exact Hf.
  - exists s1, c. unfold process. rewrite Hrun. tauto.
Qed.

(** More fuel never changes a result. *)
Lemma process_blocks_mono fuel fuel' s s' :
  process_blocks fuel s = Some s' -> (fuel <= fuel')%nat ->
  process_blocks fuel' s = Some s'.
Proof.
  revert fuel' s. induction fuel as [|fuel IH]; intros fuel' s Hrun Hle; [done|].
  destruct fuel' as [|fuel']; [lia|]. simpl in *.
  destruct (block_ready s); [|done]. apply IH; [done|lia].
Qed.

Lemma feed_mono inner inner' s input samples consumed r :
  feed inner s input samples consumed = Some r -> (inner <= inner')%nat ->
  feed inner' s input samples consumed = Some r.
Proof.
  unfold feed. intros Hrun Hle.
  destruct (_ =? 0); [done|].
  destruct (write _ _ _) as [inbuf n].
  destruct (process_blocks inner (set_inbuf s inbuf)) as [s1|] eqn:Hpb; [|done].
  now rewrite (process_blocks_mono _ _ _ _ Hpb Hle).
Qed.

Lemma feed_all_mono fuel fuel' inner inner' s input samples consumed r :
  feed_all fuel inner s input samples consumed = Some r ->
  (fuel <= fuel')%nat -> (inner <= inner')%nat ->
  feed_all fuel' inner' s input samples consumed = Some r.
Proof.
  revert fuel' s consumed.
  induction fuel as [|fuel IH]; intros fuel' s consumed Hrun Hle Hle'; [done|].
  destruct fuel' as [|fuel']; [lia|]. simpl in *.
  destruct (consumed <? samples); [|done].
  destruct (feed inner s input samples consumed) as [st|] eqn:Hfeed; [|done].
  rewrite (feed_mono _ _ _ _ _ _ _ Hfeed Hle').
  destruct st as [|s1 c1]; [done|]. apply IH; [done|lia|done].
Qed.

Lemma process_mono fuel fuel' s input output samples r :
  process fuel s input output samples = Some r -> (fuel <= fuel')%nat ->
  process fuel' s input output samples = Some r.
Proof.
  unfold process. intros Hrun Hle.
  destruct (feed_all fuel fuel s input samples 0) as [[s1 c]|] eqn:Hfa; [|done].
  now rewrite (feed_all_mono _ _ _ _ _ _ _ _ _ Hfa Hle Hle).
Qed.

(** [process] keeps the invariant, so it holds of every stretcher that the
    constructor made and that has processed any number of blocks. *)
Lemma process_wf fuel s input output samples :
  wf s -> SizeT.in_range samples -> (enough_fuel s samples <= fuel)%nat ->
  exists s' out,
    process fuel s input output samples = Some (s', out) /\
    wf s' /\ same_params s s'.
Proof.
  intros Hwf Hs Hfuel. unfold enough_fuel in Hfuel.
  destruct (process_terminates fuel s input output samples Hwf Hs)
    as (s1 & c & _ & Hrun & Hwf1 & Hsame & _); [lia|lia|].
  destruct (drain_wf s1 output samples Hwf1) as [Hwf' Hsame'].
  exists (drain s1 output samples).1, (drain s1 output samples).2.
  rewrite Hrun. split; [now destruct (drain s1 output samples)|].
  split; [done|]. eapply same_params_trans; eassumption.
Qed.

(** A block of at most the maximum input block size fits the output ring
    of every stretcher that has the parameters the constructor set. *)
Lemma max_block_fits ratio B n1 ws (ty : WindowType) junk s samples :
  SizeT.in_range ratio -> SizeT.in_range B -> B * ratio < SizeT.modulus ->
  same_params (IntegerTimeStretcher ratio B n1 ws ty junk) s ->
  0 <= samples <= B ->
  samples * m_ratio s <= rb_size (m_outbuf s).
Proof.
  intros Hr HB Hov (-> & _ & _ & _ & _ & _ & ->) Hs. simpl.
  unfold SizeT.in_range in *. rewrite mul_small by (unfold SizeT.in_range; nia).
  nia.
Qed.

(** The latency the code reports is the window length less the input
    increment. *)
Lemma getProcessingLatency_spec s :
  wf s -> getProcessingLatency s = m_wlen s - m_n1 s.
Proof.
  intros [Hr Hn1 Hn2 Hw _ _ _ _ _].
  unfold getProcessingLatency, getWindowSize, getInputIncrement.
  apply sub_small. unfold SizeT.in_range. nia.
Qed.

(** It is the window length less the synthesis hop only for ratio one. *)
Lemma getProcessingLatency_synthesis_hop s :
  wf s -> (getProcessingLatency s = m_wlen s - m_n2 s <-> m_ratio s = 1).
Proof.
  intros Hwf. rewrite (getProcessingLatency_spec s Hwf).
  destruct Hwf as [Hr Hn1 Hn2 _ _ _ _ _ _]. split; intros Heq; nia.
Qed.

(** ** The claims about IntegerTimeStretcher *)

(** C2: for a stretcher with ratio at least one and a call of [process] whose
    [samples] times the ratio fits the output ring (that is, [samples] does
    not exceed the maximum input block size the ring was made for), the call
    returns and overwrites exactly the first [samples * m_ratio] entries of
    [output]: when the output ring holds fewer ready frames after the loops,
    zeros come first and all ready frames follow; otherwise the oldest
    [samples * m_ratio] ready frames are handed out. *)
Theorem C2_process_writes_samples_times_ratio s input output samples fuel :
  wf s -> SizeT.in_range samples ->
  samples * m_ratio s <= rb_size (m_outbuf s) ->
  (Z.to_nat (samples * m_ratio s) <= length output)%nat ->
  (enough_fuel s samples <= fuel)%nat ->
  exists s1 consumed s' out,
    feed_all fuel fuel s input samples 0 = Some (s1, consumed) /\
    process fuel s input output samples = Some (s', out) /\
    let want := Z.to_nat (samples * m_ratio s) in
    let ready := rb_data (m_outbuf s1) in
    length out = length output /\
    drop want out = drop want output /\
    ((length ready < want)%nat ->
       take want out = replicate (want - length ready) d_zero ++ ready /\
       rb_data (m_outbuf s') = []) /\
    ((want <= length ready)%nat ->
       take want out = take want ready /\
       rb_data (m_outbuf s') = drop want ready).
Proof.
  intros Hwf Hs Hfit Hroom Hfuel. unfold enough_fuel in Hfuel.
  destruct (process_terminates fuel s input output samples Hwf Hs)
    as (s1 & c & Hloop & Hrun & Hwf1 & Hsame & _); [lia|lia|].
  destruct Hsame as (Hratio & _).
  pose proof (wf_ratio s Hwf) as Hr. pose proof (wf_outbuf_size s Hwf) as Hsz.
  unfold SizeT.in_range in Hs.
  rewrite Hrun, drain_spec; rewrite ?Hratio; try lia.
  set (want := Z.to_nat (samples * m_ratio s)).
  set (ready := rb_data (m_outbuf s1)).
  eexists s1, c, _, _. split; [done|]. split; [done|]. simpl.
  assert (Hpre : length (replicate (want - length ready) d_zero ++ take want ready)
                 = want).
  { rewrite length_app, length_replicate, length_take. lia. }
  split.
  { rewrite !length_app, length_replicate, length_take, length_drop. lia. }
  split.
  { rewrite app_assoc, drop_app_length'; done. }
  split; intros Hcmp; fold ready in Hcmp |- *.
  - rewrite app_assoc, take_app_length' by done.
    rewrite take_ge, drop_ge by lia. done.
  - rewrite app_assoc, take_app_length' by done.
    replace (want - length ready)%nat with O by lia. done.
Qed.

(** C3: one pass of the inner loop runs exactly when the input ring has at
    least [m_wlen] readable frames and the output ring at least [m_n2]
    writable ones; the pass advances the read position of the input ring
    by exactly [m_n1], appends exactly the first [m_n2] entries of
    [m_mashbuf] (as [processBlock] left it) to the output ring, moves
    [m_mashbuf] left by [m_n2] and clears its last [m_n2] entries. *)
Theorem C3_inner_iteration s fuel :
  wf s ->
  (block_ready s = true <->
     m_wlen s <= getReadSpace (m_inbuf s) /\ m_n2 s <= getWriteSpace (m_outbuf s)) /\
  (block_ready s = false -> process_blocks (S fuel) s = Some s) /\
  (block_ready s = true ->
     let frame := take (Z.to_nat (m_wlen s)) (rb_data (m_inbuf s)) in
     let mash := (processBlock s frame (m_mashbuf s)).2 in
     let s' := process_one_block s in
     let n2 := Z.to_nat (m_n2 s) in
     process_blocks (S fuel) s = process_blocks fuel s' /\
     getReadSpace (m_inbuf s') = getReadSpace (m_inbuf s) - m_n1 s /\
     rb_data (m_inbuf s') = drop (Z.to_nat (m_n1 s)) (rb_data (m_inbuf s)) /\
     rb_data (m_outbuf s') = rb_data (m_outbuf s) ++ take n2 mash /\
     length (take n2 mash) = n2 /\
     m_mashbuf s' = drop n2 mash ++ replicate n2 d_zero /\
     length (m_mashbuf s') = Z.to_nat (m_wlen s)).
Proof.
  intros Hwf. split; [apply block_ready_iff|]. split.
  - intros Hstop. rewrite process_blocks_unfold. now rewrite Hstop.
  - intros Hready. cbv zeta. rewrite process_blocks_unfold, Hready.
    destruct (process_one_block_spec s Hwf Hready)
      as (_ & Hin & Hrs & Hout & _ & Hmash).
    pose proof (wf_mashbuf _ (process_one_block_wf s Hwf Hready)) as Hlen.
    destruct (process_one_block_fields s) as (_ & _ & _ & Fw & _).
    rewrite Fw in Hlen.
    split; [done|]. split; [done|]. split; [done|]. split; [done|].
    split; [|split; done].
    rewrite length_take, processBlock_out_length, (wf_mashbuf s Hwf).
    pose proof (wf_wlen s Hwf). pose proof (wf_n2 s Hwf).
    pose proof (wf_ratio s Hwf). pose proof (wf_n1 s Hwf). nia.
Qed.

(** C4: given a ratio R, a maximum input block B, an input increment n1 and
    a requested window size, all of them [size_t] values whose products
    2 * (R * n1) and B * R fit [size_t], and such that the resulting window
    length fits the [int] counter of the clearing loop, the constructor
    establishes n2 = R * n1, the window length
    W = max (requested, 2 * n2), hence W >= 2 * (R * n1), an empty input
    ring with room for W frames, an empty output ring with room for B * R
    frames, and an [m_mashbuf] of W entries that are all zero. *)
Theorem C4_constructor_establishes ratio B n1 ws (ty : WindowType) junk :
  SizeT.in_range ratio -> SizeT.in_range n1 ->
  SizeT.in_range ws -> SizeT.in_range B ->
  2 * (ratio * n1) < SizeT.modulus -> B * ratio < SizeT.modulus ->
  window_fits_int (Z.max ws (2 * (ratio * n1))) ->
  let s := IntegerTimeStretcher ratio B n1 ws ty junk in
  m_ratio s = ratio /\ m_n1 s = n1 /\
  m_n2 s = ratio * n1 /\
  m_wlen s = Z.max ws (2 * m_n2 s) /\
  2 * (ratio * n1) <= m_wlen s /\
  rb_size (m_inbuf s) = m_wlen s /\ rb_data (m_inbuf s) = [] /\
  getWriteSpace (m_inbuf s) = m_wlen s /\
  rb_size (m_outbuf s) = B * ratio /\ rb_data (m_outbuf s) = [] /\
  getWriteSpace (m_outbuf s) = B * ratio /\
  length (m_mashbuf s) = Z.to_nat (m_wlen s) /\
  m_mashbuf s = replicate (Z.to_nat (m_wlen s)) d_zero.
Proof.
  intros Hr Hn Hws HB Hov HovB Hint s. unfold SizeT.in_range in Hr, Hn.
  assert (Hn2 : m_n2 s = ratio * n1).
  { simpl. rewrite mul_small; [lia|]. unfold SizeT.in_range. nia. }
  assert (Hw : m_wlen s = Z.max ws (2 * m_n2 s)).
  { change (m_wlen s) with (Z.max ws (SizeT.mul (m_n2 s) 2)). rewrite Hn2.
    rewrite mul_small; [f_equal; lia|]. unfold SizeT.in_range. nia. }
  assert (Ho : rb_size (m_outbuf s) = B * ratio).
  { simpl. apply mul_small. unfold SizeT.in_range in *. nia. }
  split; [done|]. split; [done|]. split; [done|]. split; [done|].
  split; [lia|]. split; [done|]. split; [done|].
  split; [unfold getWriteSpace, getReadSpace; simpl; lia|].
  split; [done|]. split; [done|].
  split; [unfold getWriteSpace, getReadSpace; rewrite Ho; simpl; lia|].
  assert (Hfit : window_fits_int (m_wlen s)) by (rewrite Hw, Hn2; exact Hint).
  subst s. rewrite constructor_mashbuf by exact Hfit.
  split; [apply length_replicate|done].
Qed.

(** C5: in [processBlock], after the inverse transform, the division by
    [m_wlen] and the synthesis window, every one of the [m_wlen] samples is
    divided by [div] before it is added into the accumulator [out]; [div]
    is the integer quotient [m_wlen / m_n2], halved (again in integer
    arithmetic) when it exceeds one, which it does for every window of at
    least two synthesis hops. *)
Theorem C5_processBlock_scaling s buf out i :
  wf s -> m_wlen s / m_n2 s < 2 ^ 31 ->
  length out = Z.to_nat (m_wlen s) -> (i < Z.to_nat (m_wlen s))%nat ->
  block_div s
    = (if 1 <? m_wlen s / m_n2 s then m_wlen s / m_n2 s / 2 else m_wlen s / m_n2 s) /\
  block_div s = m_wlen s / m_n2 s / 2 /\
  1 <= block_div s /\
  (processBlock s buf out).2 !! i
    = Some (d_add (get out i)
              (d_div (get (synthesis_frame s buf) i) (d_of_int (block_div s)))).
Proof.
  intros Hwf Hint Hout Hi.
  pose proof (wf_wlen s Hwf) as Hw. pose proof (wf_n2 s Hwf) as Hn2.
  pose proof (wf_ratio s Hwf). pose proof (wf_n1 s Hwf).
  destruct (block_div_halved s) as [Hdiv Hpos]; [nia|lia|done|].
  assert (Hq : 2 <= m_wlen s / m_n2 s) by (apply Z.div_le_lower_bound; nia).
  split.
  { rewrite Hdiv. now replace (1 <? m_wlen s / m_n2 s) with true
      by (symmetry; apply Z.ltb_lt; lia). }
  split; [done|]. split; [done|].
  unfold processBlock. simpl.
  rewrite overlap_add_lookup by done. do 2 f_equal.
  apply arr_get_lookup.
  apply normalise_lookup; [apply synthesis_frame_length|done].
Qed.

(** C10: [process] returns for every number of samples.  A pass through the
    outer loop either finds the input ring without write space, and then
    leaves the loop with the stretcher as it was, so that the frames of
    [input] from [consumed] on are never buffered, or it raises [consumed]
    strictly, never beyond [samples]. *)
Theorem C10_process_terminates s input output samples fuel :
  wf s -> SizeT.in_range samples -> (enough_fuel s samples <= fuel)%nat ->
  (exists s' out, process fuel s input output samples = Some (s', out)) /\
  (exists s1 consumed,
     feed_all fuel fuel s input samples 0 = Some (s1, consumed) /\
     0 <= consumed <= samples /\
     (consumed < samples -> getWriteSpace (m_inbuf s1) = 0)) /\
  (forall consumed, 0 <= consumed < samples ->
     (getWriteSpace (m_inbuf s) = 0 /\
      feed fuel s input samples consumed = Some Break /\
      feed_all (S fuel) fuel s input samples consumed = Some (s, consumed))
     \/
     (0 < getWriteSpace (m_inbuf s) /\
      exists s1 consumed1,
        feed fuel s input samples consumed = Some (Continue s1 consumed1) /\
        consumed < consumed1 <= samples)).
Proof.
  intros Hwf Hs Hfuel. unfold enough_fuel in Hfuel.
  destruct (process_terminates fuel s input output samples Hwf Hs)
    as (s1 & c & Hloop & Hrun & Hwf1 & _ & Hc & Hend); [lia|lia|].
  split.
  { exists (drain s1 output samples).1, (drain s1 output samples).2.
    rewrite Hrun. now destruct (drain s1 output samples). }
  split.
  { exists s1, c. tauto. }
  intros consumed Hcons.
  destruct (feed_spec fuel s input samples consumed Hwf Hs Hcons)
    as [[Hfull Hbreak]|(Hroom & s2 & Hcont & _)]; [lia| |].
  - left. split; [done|]. split; [done|]. simpl.
    replace (consumed <? samples) with true by (symmetry; apply Z.ltb_lt; lia).
    now rewrite Hbreak.
  - right. split; [done|]. eexists _, _. split; [exact Hcont|]. lia.
Qed.

End StretcherFacts.

Import IntegerSamples.

(** C1: [getProcessingLatency] of a stretcher by two with input increment
    64 and window 2048 is 2048 - 64 = 1984, the window length less the
    input increment, and not 2048 - 128 = 1920, the window length less the
    synthesis hop. *)
Theorem C1_getProcessingLatency_at_ratio_two :
  let s := IntegerTimeStretcher.IntegerTimeStretcher 2 1024 64 2048 tt
             IntegerSamples.junk in
  IntegerTimeStretcher.m_wlen s = 2048 /\
  IntegerTimeStretcher.m_n2 s = 128 /\
  IntegerTimeStretcher.getProcessingLatency s = 1984 /\
  IntegerTimeStretcher.m_wlen s - IntegerTimeStretcher.m_n2 s = 1920.
Proof. cbv zeta. repeat split; reflexivity. Qed.

(** ** The claims about AudioGenerator *)

(** C6: [NoteOff::Comparator] orders [a] before [b] exactly when
    [a.frame < b.frame]; hence, whatever was inserted, iterating a
    [NoteOffSet] yields the note-offs in non-decreasing frame order, and
    every inserted frame is met on the way. *)
Theorem C6_note_offs_ordered_by_frame :
  (forall a b,
     AudioGenerator.Comparator a b = true
     <-> AudioGenerator.frame a < AudioGenerator.frame b) /\
  (forall ns,
     StronglySorted AudioGenerator.frame_le (AudioGenerator.NoteOffSet_of ns)) /\
  (forall ns n,
     In n ns ->
     In (AudioGenerator.frame n)
        (map AudioGenerator.frame (AudioGenerator.NoteOffSet_of ns))).
Proof.
  split; [apply Comparator_lt|]. split.
  - intros ns. apply sorted_lt_le, of_insertions_sorted.
  - apply of_insertions_frames.
Qed.

(** C9: after any sequence of insertions a [NoteOffSet] holds at most one
    note-off for each frame value, and inserting a note-off whose frame is
    that of a note-off already held, whatever its pitch, leaves the set
    unchanged. *)
Theorem C9_one_note_off_per_frame ns a b :
  In a (AudioGenerator.NoteOffSet_of ns) ->
  AudioGenerator.frame b = AudioGenerator.frame a ->
  NoDup (map AudioGenerator.frame (AudioGenerator.NoteOffSet_of ns)) /\
  AudioGenerator.NoteOffSet_insert b (AudioGenerator.NoteOffSet_of ns)
  = AudioGenerator.NoteOffSet_of ns /\
  AudioGenerator.NoteOffSet_of (ns ++ [b]) = AudioGenerator.NoteOffSet_of ns.
Proof.
  intros Ha Hfr. pose proof (of_insertions_sorted ns) as Hs.
  split; [now apply sorted_frames_NoDup|].
  rewrite NoteOffSet_of_snoc.
  split; now apply (insert_same_frame a).
Qed.

(** ** The claim about AudioCallbackPlaySource *)

(** C8: for every channel index [c], [getWriteRingBuffer] and
    [getReadRingBuffer] return a value without indexing outside the vector
    or dereferencing a null vector pointer; the value is null whenever the
    vector pointer is null or [c] is not below the size of the vector, and
    the element at [c] otherwise. *)
Theorem C8_ring_buffer_accessors_total {RingBufferFloat : Type}
    (s : PlaySource.AudioCallbackPlaySource RingBufferFloat) (c : Z) :
  SizeT.in_range c ->
  (exists p,
     PlaySource.getWriteRingBuffer s c = Returns p /\
     (PlaySource.m_writeBuffers s = null \/
      (exists v, PlaySource.m_writeBuffers s = Some v /\ PlaySource.size v <= c) ->
      p = null) /\
     (forall v, PlaySource.m_writeBuffers s = Some v -> c < PlaySource.size v ->
        v !! Z.to_nat c = Some p)) /\
  (exists p,
     PlaySource.getReadRingBuffer s c = Returns p /\
     (PlaySource.m_readBuffers s = null \/
      (exists v, PlaySource.m_readBuffers s = Some v /\ PlaySource.size v <= c) ->
      p = null) /\
     (forall v, PlaySource.m_readBuffers s = Some v -> c < PlaySource.size v ->
        v !! Z.to_nat c = Some p)).
Proof.
  intros [Hc _]. split.
  - exists (PlaySource.checked_at (PlaySource.m_writeBuffers s) c).
    split; [now apply getWriteRingBuffer_checked|].
    split; [apply checked_at_null|].
    intros v Hv Hlt. rewrite Hv. unfold PlaySource.checked_at.
    replace (c <? PlaySource.size v) with true by (symmetry; apply Z.ltb_lt; lia).
    destruct (v !! Z.to_nat c) as [p|] eqn:Hp; [done|].
    apply lookup_ge_None in Hp. unfold PlaySource.size in Hlt. lia.
  - exists (PlaySource.checked_at (PlaySource.m_readBuffers s) c).
    split; [now apply getReadRingBuffer_checked|].
    split; [apply checked_at_null|].
    intros v Hv Hlt. rewrite Hv. unfold PlaySource.checked_at.
    replace (c <? PlaySource.size v) with true by (symmetry; apply Z.ltb_lt; lia).
    destruct (v !! Z.to_nat c) as [p|] eqn:Hp; [done|].
    apply lookup_ge_None in Hp. unfold PlaySource.size in Hlt. lia.
Qed.

(** ** Runs of the model *)

(** A first block of four frames: one pass of the inner loop has run, so
    six zeros precede the two frames that are ready; the two entries of
    [output] beyond [samples * m_ratio] keep their value. *)
Example process_cold_start :
  snd <$> IntegerTimeStretcher.process 5 by_two [10; 20; 30; 40] (replicate 10 9) 4
  = Some [0; 0; 0; 0; 0; 0; 2; 5; 9; 9].
Proof. reflexivity. Qed.

(** The next block: four passes, eight frames, no padding. *)
Example process_warm :
  (IntegerTimeStretcher.process 5 by_two [10; 20; 30; 40] (replicate 10 9) 4
     ≫= fun r =>
       snd <$> IntegerTimeStretcher.process 5 r.1 [50; 60; 70; 80] (replicate 10 9) 4)
  = Some [12; 17; 17; 22; 22; 27; 27; 32; 9; 9].
Proof. reflexivity. Qed.

(** With too little fuel the model gives no result. *)
Example process_out_of_fuel :
  IntegerTimeStretcher.process 1 by_two [10; 20; 30; 40] (replicate 10 9) 4 = None.
Proof. reflexivity. Qed.

(** For ratio one the two hops coincide, and so do the two latencies. *)
Example latency_at_ratio_one :
  let s := IntegerTimeStretcher.IntegerTimeStretcher 1 1024 64 2048 tt junk in
  IntegerTimeStretcher.getProcessingLatency s = 1984 /\
  IntegerTimeStretcher.m_wlen s - IntegerTimeStretcher.m_n2 s = 1984.
Proof. split; reflexivity. Qed.

(** 2048 / 128 = 16 hops per window give the divisor 8; three hops give 1. *)
Example block_div_values :
  IntegerTimeStretcher.block_div
    (IntegerTimeStretcher.IntegerTimeStretcher 2 1024 64 2048 tt junk) = 8 /\
  IntegerTimeStretcher.block_div
    (IntegerTimeStretcher.IntegerTimeStretcher 2 4 1 6 tt junk) = 1.
Proof. split; reflexivity. Qed.

(** Three note-offs, two of them at frame 100: the later one is dropped. *)
Example note_off_set_of :
  AudioGenerator.NoteOffSet_of
    [ {| AudioGenerator.pitch := 60; AudioGenerator.frame := 100 |};
      {| AudioGenerator.pitch := 62; AudioGenerator.frame := 50 |};
      {| AudioGenerator.pitch := 64; AudioGenerator.frame := 100 |} ]
  = [ {| AudioGenerator.pitch := 62; AudioGenerator.frame := 50 |};
      {| AudioGenerator.pitch := 60; AudioGenerator.frame := 100 |} ].
Proof. reflexivity. Qed.

Example accessor_in_range :
  PlaySource.getWriteRingBuffer
    {| PlaySource.m_readBuffers := null;
       PlaySource.m_writeBuffers := Some [Some 11%nat; Some 22%nat];
       PlaySource.m_playing := true;
       PlaySource.m_exiting := false |} 1
  = Returns (Some 22%nat).
Proof. reflexivity. Qed.

(** Indexing without the check is what the accessors avoid. *)
Example unchecked_index_out_of_range :
  PlaySource.at_index [Some 11%nat; Some 22%nat] 2 = Undefined.
Proof. reflexivity. Qed.

(** ** The theorems at concrete inputs *)

(** The invariant of a concrete stretcher, by evaluation. *)
Ltac wf_by_evaluation :=
  split; vm_compute;
  first [ reflexivity | discriminate
        | split; first [ reflexivity | discriminate ] ].

Lemma C2_witness :
  exists s' out,
    IntegerTimeStretcher.process 5 by_two [10; 20; 30; 40] (replicate 10 9) 4
    = Some (s', out) /\
    take 8 out = replicate 6 0 ++ [2; 5] /\ drop 8 out = [9; 9].
Proof.
  destruct (C2_process_writes_samples_times_ratio
              by_two [10; 20; 30; 40] (replicate 10 9) 4 5)
    as (s1 & c & s' & out & Hloop & Hrun & _ & Hrest & Hshort & _).
  - wf_by_evaluation.
  - vm_compute. split; [discriminate | reflexivity].
  - vm_compute. discriminate.
  - vm_compute. lia.
  - vm_compute. lia.
  - exists s', out. split; [exact Hrun|].
    vm_compute in Hloop. injection Hloop as <- <-.
    split; [|exact Hrest].
    destruct Hshort as [Htake _]; [vm_compute; lia|exact Htake].
Defined.

Lemma C3_witness :
  IntegerTimeStretcher.block_ready by_two_loaded = true /\
  RingBuffer.rb_data
    (IntegerTimeStretcher.m_inbuf
       (IntegerTimeStretcher.process_one_block by_two_loaded))
  = drop 1 [10; 20; 30; 40] /\
  IntegerTimeStretcher.m_mashbuf
    (IntegerTimeStretcher.process_one_block by_two_loaded)
  = [7; 10; 0; 0].
Proof.
  destruct (C3_inner_iteration by_two_loaded 3) as (_ & _ & Hpass).
  - wf_by_evaluation.
  - split; [reflexivity|].
    destruct (Hpass eq_refl) as (_ & _ & Hin & _ & _ & Hmash & _).
    split; [exact Hin | exact Hmash].
Defined.

Lemma C4_witness :
  IntegerTimeStretcher.m_n2 by_two = 2 /\
  IntegerTimeStretcher.m_wlen by_two = 4 /\
  RingBuffer.getWriteSpace (IntegerTimeStretcher.m_outbuf by_two) = 8 /\
  IntegerTimeStretcher.m_mashbuf by_two = replicate 4 0.
Proof.
  destruct (C4_constructor_establishes 2 4 1 4 tt junk)
    as (_ & _ & Hn2 & Hw & _ & _ & _ & _ & _ & _ & Hout & _ & Hmash).
  - vm_compute. split; [discriminate | reflexivity].
  - vm_compute. split; [discriminate | reflexivity].
  - vm_compute. split; [discriminate | reflexivity].
  - vm_compute. split; [discriminate | reflexivity].
  - vm_compute. reflexivity.
  - vm_compute. reflexivity.
  - vm_compute. discriminate.
  - split; [exact Hn2|]. split; [exact Hw|]. split; [exact Hout | exact Hmash].
Defined.

Lemma C5_witness :
  IntegerTimeStretcher.block_div by_two = 4 / 2 / 2 /\
  (IntegerTimeStretcher.processBlock by_two [10; 20; 30; 40] [1; 1; 1; 1]).2 !! 1%nat
  = Some (1 + IntegerTimeStretcher.get
                (IntegerTimeStretcher.synthesis_frame by_two [10; 20; 30; 40]) 1
              / IntegerTimeStretcher.block_div by_two).
Proof.
  destruct (C5_processBlock_scaling by_two [10; 20; 30; 40] [1; 1; 1; 1] 1)
    as (_ & Hdiv & _ & Hadd).
  - wf_by_evaluation.
  - vm_compute. reflexivity.
  - reflexivity.
  - vm_compute. lia.
  - split; [exact Hdiv | exact Hadd].
Defined.

Lemma C8_witness :
  PlaySource.getWriteRingBuffer
    {| PlaySource.m_readBuffers := null;
       PlaySource.m_writeBuffers := Some [Some 11%nat; Some 22%nat];
       PlaySource.m_playing := true;
       PlaySource.m_exiting := false |} 2
  = Returns null /\
  PlaySource.getReadRingBuffer
    {| PlaySource.m_readBuffers := null;
       PlaySource.m_writeBuffers := Some [Some 11%nat; Some 22%nat];
       PlaySource.m_playing := true;
       PlaySource.m_exiting := false |} 2
  = Returns null.
Proof.
  destruct (C8_ring_buffer_accessors_total
              {| PlaySource.m_readBuffers := null;
                 PlaySource.m_writeBuffers := Some [Some 11%nat; Some 22%nat];
                 PlaySource.m_playing := true;
                 PlaySource.m_exiting := false |} 2)
    as [(p & Hp & Hnull & _) (q & Hq & Hqnull & _)].
  - vm_compute. split; [discriminate | reflexivity].
  - rewrite Hp, Hq. split; f_equal.
    + apply Hnull. right. eexists. split; [reflexivity|]. vm_compute. discriminate.
    + apply Hqnull. left. reflexivity.
Defined.

Lemma C9_witness :
  AudioGenerator.NoteOffSet_insert
    {| AudioGenerator.pitch := 64; AudioGenerator.frame := 100 |}
    (AudioGenerator.NoteOffSet_of
       [ {| AudioGenerator.pitch := 60; AudioGenerator.frame := 100 |};
         {| AudioGenerator.pitch := 62; AudioGenerator.frame := 50 |} ])
  = [ {| AudioGenerator.pitch := 62; AudioGenerator.frame := 50 |};
      {| AudioGenerator.pitch := 60; AudioGenerator.frame := 100 |} ].
Proof.
  destruct (C9_one_note_off_per_frame
    [ {| AudioGenerator.pitch := 60; AudioGenerator.frame := 100 |};
      {| AudioGenerator.pitch := 62; AudioGenerator.frame := 50 |} ]
    {| AudioGenerator.pitch := 60; AudioGenerator.frame := 100 |}
    {| AudioGenerator.pitch := 64; AudioGenerator.frame := 100 |})
    as (_ & Hsame & _).
  - vm_compute. right. left. reflexivity.
  - reflexivity.
  - rewrite Hsame. reflexivity.
Defined.

Lemma C10_witness :
  (exists s' out,
     IntegerTimeStretcher.process 5 by_two [10; 20; 30; 40] (replicate 10 9) 4
     = Some (s', out)) /\
  IntegerTimeStretcher.feed_all 6 5 by_two_loaded [50; 60] 2 0
  = Some (by_two_loaded, 0).
Proof.
  split.
  - destruct (C10_process_terminates by_two [10; 20; 30; 40] (replicate 10 9) 4 5)
      as (Hret & _ & _).
    + wf_by_evaluation.
    + vm_compute. split; [discriminate | reflexivity].
    + vm_compute. lia.
    + exact Hret.
  - destruct (C10_process_terminates by_two_loaded [50; 60] (replicate 10 9) 2 5)
      as (_ & _ & Hpass).
    + wf_by_evaluation.
    + vm_compute. split; [discriminate | reflexivity].
    + vm_compute. lia.
    + destruct (Hpass 0) as [(_ & _ & Hleft)|(Hroom & _)].
      * lia.
      * exact Hleft.
      * vm_compute in Hroom. discriminate.
Defined.

(** * Further properties of the code *)

(** ** RingBufferVector *)

Section DestructorFacts.

Import RingBufferVectorOwner.

Context {RingBufferFloat : Type} `{EqDecision RingBufferFloat}.

Implicit Types (v : PlaySource.RingBufferVector RingBufferFloat)
  (deleted : list (pointer RingBufferFloat)).

Lemma owns_each_once_null v deleted :
  owns_each_once (None :: v) deleted <-> owns_each_once v (deleted ++ [None]).
Proof.
  unfold owns_each_once. simpl. split; intros [Hnd Hlive]; (split; [done|]).
  - intros a Ha Hin. apply elem_of_app in Hin as [Hin|Hin].
    + apply (Hlive a); [now right|done].
    + apply list_elem_of_singleton in Hin. discriminate.
  - intros a Ha Hin. apply elem_of_cons in Ha as [Ha|Ha]; [discriminate|].
    apply (Hlive a Ha). apply elem_of_app. now left.
Qed.

Lemma owns_each_once_object a v deleted :
  owns_each_once (Some a :: v) deleted
  <-> (Some a ∉ deleted) /\ owns_each_once v (deleted ++ [Some a]).
Proof.
  unfold owns_each_once. simpl. rewrite NoDup_cons, list_elem_of_omap. split.
  - intros [[Hnew Hnd] Hlive]. split; [apply Hlive; now left|]. split; [done|].
    intros b Hb Hin. apply elem_of_app in Hin as [Hin|Hin].
    + apply (Hlive b); [now right|done].
    + apply list_elem_of_singleton in Hin. injection Hin as ->.
      apply Hnew. exists (Some a). done.
  - intros [Hfresh [Hnd Hlive]]. split; [split; [|done]|].
    + intros (p & Hp & Hid). simpl in Hid. subst p.
      apply (Hlive a Hp). apply elem_of_app. right. now left.
    + intros b Hb Hin. apply elem_of_cons in Hb as [Hb|Hb].
      * injection Hb as ->. done.
      * apply (Hlive b Hb). apply elem_of_app. now left.
Qed.

Lemma destroy_outcome fuel v deleted :
  (length v < fuel)%nat ->
  (owns_each_once v deleted ->
   destroy fuel v deleted = Some (Returns ([], deleted ++ v))) /\
  (~ owns_each_once v deleted -> destroy fuel v deleted = Some Undefined).
Proof.
  revert fuel deleted. induction v as [|p v IH]; intros fuel deleted Hfuel;
    (destruct fuel as [|fuel]; [simpl in Hfuel; lia|]).
  - simpl. rewrite app_nil_r. split; [done|]. intros Hno. exfalso. apply Hno.
    split; [constructor|]. intros a Ha. now apply elem_of_nil in Ha.
  - simpl in Hfuel. destruct (IH fuel (deleted ++ [p]) ltac:(lia)) as [IHok IHbad].
    rewrite <- app_assoc in IHok. simpl in IHok.
    destruct p as [a|]; simpl.
    + case_decide as Hin.
      * split; [|done]. intros Hown.
        apply owns_each_once_object in Hown as [Hfresh _]. done.
      * split.
        -- intros Hown. apply IHok. now apply owns_each_once_object in Hown.
        -- intros Hno. apply IHbad. intros Hown. apply Hno.
           apply owns_each_once_object. done.
    + split.
      * intros Hown. apply IHok. now apply owns_each_once_null.
      * intros Hno. apply IHbad. intros Hown. apply Hno.
        now apply owns_each_once_null.
Qed.

(** X14: the destructor ends.  When no object is pointed to by two entries
    of the vector and none was deleted before, it calls [delete] once for
    each entry, first to last, null entries included, and leaves the vector
    empty; otherwise it deletes some object a second time, which is
    undefined. *)
Theorem X14_destructor_deletes_all v deleted (fuel : nat) :
  (length v < fuel)%nat ->
  (owns_each_once v deleted ->
   destroy fuel v deleted = Some (Returns ([], deleted ++ v))) /\
  (~ owns_each_once v deleted -> destroy fuel v deleted = Some Undefined).
Proof. apply destroy_outcome. Qed.

End DestructorFacts.

(** ** NoteOffSet: which note-offs are kept *)

Section NoteOffExtras.

Import AudioGenerator.

(** What an insertion does to membership in a set sorted by frame. *)
Lemma In_insert_iff n x s :
  StronglySorted frame_lt s ->
  (In x (NoteOffSet_insert n s)
   <-> In x s \/ (x = n /\ ~ In (frame n) (map frame s))).
Proof.
  unfold NoteOffSet_insert. induction s as [|y s IH]; intros Hs; simpl.
  - split; [intros [<-|[]]; right; tauto | intros [[]|[-> _]]; now left].
  - apply StronglySorted_inv in Hs as [Hs Hy]. rewrite Forall_forall in Hy.
    assert (Hgt : forall f, In f (map frame s) -> frame y < f).
    { intros f (z & <- & Hz)%in_map_iff. apply (Hy z), list_elem_of_In, Hz. }
    destruct (Comparator n y) eqn:Hny; [|destruct (Comparator y n) eqn:Hyn].
    + apply Comparator_lt in Hny. simpl. split.
      * intros [<-|H]; [right; split; [done|]|now left].
        intros [Heq|Hin]; [lia|]. specialize (Hgt _ Hin). lia.
      * intros [H|[-> _]]; [now right|now left].
    + apply Comparator_lt in Hyn. simpl. rewrite (IH Hs). split.
      * intros [<-|[H|[-> Hn]]]; [left; now left|left; now right|].
        right. split; [done|]. intros [Heq|Hin]; [lia|done].
      * intros [[<-|H]|[-> Hn]]; [now left|right; now left|].
        right. right. split; [done|]. intros Hin. apply Hn. now right.
    + apply Comparator_ge in Hny. apply Comparator_ge in Hyn. split.
      * intros H. now left.
      * intros [H|[-> Hn]]; [done|]. exfalso. apply Hn. left. lia.
Qed.

Lemma of_insertions_frames_iff ns f :
  In f (map frame (NoteOffSet_of ns)) <-> In f (map frame ns).
Proof.
  induction ns as [|n ns IH] using rev_ind; [done|].
  rewrite NoteOffSet_of_snoc, map_app, in_app_iff. simpl. split.
  - intros Hf. apply in_map_iff in Hf as (x & <- & Hx).
    apply (In_insert_iff _ _ _ (of_insertions_sorted ns)) in Hx as [Hx|[-> _]].
    + left. apply IH, in_map_iff. eauto.
    + right. now left.
  - intros [Hf|[<-|[]]].
    + apply IH in Hf. apply in_map_iff in Hf as (x & <- & Hx).
      apply in_map_iff. exists x. split; [done|]. now apply insert_keeps.
    + apply insert_frame_present.
Qed.

Lemma first_inserted_wins ns x :
  In x (NoteOffSet_of ns)
  <-> exists pre post, ns = pre ++ x :: post /\ ~ In (frame x) (map frame pre).
Proof.
  induction ns as [|n ns IH] using rev_ind.
  - split; [intros []|]. intros (pre & post & Heq & _). now destruct pre.
  - rewrite NoteOffSet_of_snoc, In_insert_iff by apply of_insertions_sorted.
    rewrite of_insertions_frames_iff. split.
    + intros [Hx|[-> Hn]].
      * apply IH in Hx as (pre & post & -> & Hpre).
        exists pre, (post ++ [n]). split; [|done].
        now rewrite <- app_assoc.
      * exists ns, []. done.
    + intros (pre & post & Heq & Hpre).
      destruct post as [|m post _] using rev_ind.
      * apply app_inj_tail in Heq as [-> ->]. right. done.
      * change (pre ++ x :: post ++ [m]) with (pre ++ (x :: post) ++ [m]) in Heq.
        rewrite app_assoc in Heq. apply app_inj_tail in Heq as [-> ->].
        left. apply IH. eauto.
Qed.

(** X12: first come, first kept.  After any sequence of insertions the set
    holds exactly those note-offs before which no note-off of the same
    frame was inserted. *)
Theorem X12_note_off_first_inserted_wins ns x :
  In x (NoteOffSet_of ns)
  <-> exists pre post, ns = pre ++ x :: post /\ ~ In (frame x) (map frame pre).
Proof. apply first_inserted_wins. Qed.

(** Two lists sorted strictly by frame with the same members are equal. *)
Lemma sorted_same_members_eq (l l' : list NoteOff) :
  StronglySorted frame_lt l -> StronglySorted frame_lt l' ->
  (forall x, In x l <-> In x l') -> l = l'.
Proof.
  revert l'. induction l as [|a l IH]; intros l' Hl Hl' Hmem.
  - destruct l' as [|b l']; [done|]. exfalso. apply (Hmem b). now left.
  - destruct l' as [|b l']; [exfalso; apply (Hmem a); now left|].
    apply StronglySorted_inv in Hl as [Hl Ha].
    apply StronglySorted_inv in Hl' as [Hl' Hb].
    rewrite Forall_forall in Ha, Hb.
    assert (Hab : a = b).
    { destruct (proj1 (Hmem a) ltac:(now left)) as [->|Hin]; [done|].
      destruct (proj2 (Hmem b) ltac:(now left)) as [->|Hin']; [done|].
      apply list_elem_of_In in Hin, Hin'.
      specialize (Ha _ Hin'). specialize (Hb _ Hin). unfold frame_lt in *. lia. }
    subst b. f_equal. apply IH; [done|done|].
    intros x. split; intros Hx.
    + destruct (proj1 (Hmem x) ltac:(now right)) as [->|H]; [|done].
      apply list_elem_of_In in Hx. specialize (Ha _ Hx). unfold frame_lt in Ha. lia.
    + destruct (proj2 (Hmem x) ltac:(now right)) as [->|H]; [|done].
      apply list_elem_of_In in Hx. specialize (Hb _ Hx). unfold frame_lt in Hb. lia.
Qed.

(** X13: when the inserted note-offs have pairwise distinct frames, none is
    lost and the order of insertion does not matter: the set holds exactly
    the inserted note-offs, and any rearrangement of the insertions builds
    the same set. *)
Theorem X13_note_off_distinct_frames ns ns' :
  NoDup (map frame ns) -> Permutation ns ns' ->
  (forall x, In x (NoteOffSet_of ns) <-> In x ns) /\
  length (NoteOffSet_of ns) = length ns /\
  NoteOffSet_of ns' = NoteOffSet_of ns.
Proof.
  intros Hnd Hperm.
  assert (Hmem : forall l, NoDup (map frame l) ->
            forall x, In x (NoteOffSet_of l) <-> In x l).
  { intros l Hl x. rewrite first_inserted_wins. split.
    - intros (pre & post & -> & _). apply in_app_iff. right. now left.
    - intros Hx. apply in_split in Hx as (pre & post & ->).
      exists pre, post. split; [done|].
      rewrite map_app in Hl. apply NoDup_app in Hl as (_ & Hdisj & _).
      intros Hin. apply (Hdisj (frame x)); [now apply list_elem_of_In|].
      simpl. left. }
  assert (Hnd' : NoDup (map frame ns')).
  { assert (Hp : map frame ns ≡ₚ map frame ns') by now apply Permutation_map.
    now rewrite <- Hp. }
  split; [now apply Hmem|]. split.
  - apply Permutation_length. apply NoDup_Permutation.
    + eapply NoDup_fmap_1. apply sorted_frames_NoDup, of_insertions_sorted.
    + eapply NoDup_fmap_1. exact Hnd.
    + intros x. rewrite !list_elem_of_In. now apply Hmem.
  - apply sorted_same_members_eq; try apply of_insertions_sorted.
    intros x. rewrite (Hmem ns' Hnd'), (Hmem ns Hnd).
    split; apply Permutation_in; [now symmetry|done].
Qed.

End NoteOffExtras.

(** ** IntegerTimeStretcher: the two half-exchange loops *)

Section StretcherExtras.

Import RingBuffer IntegerTimeStretcher.

Context {D WindowType : Type} `{Arith D} `{Dsp D WindowType}.

Implicit Types (s : state (D := D) (WindowType := WindowType)).

(** Both loops have the shape
    [temp = g (b[i]); b[i] = g (b[i + h]); b[i + h] = temp] for [i < h]. *)
Lemma half_loop_spec (g : D -> D) (h : nat) (buf : list D) :
  (2 * h <= length buf)%nat ->
  let r := for_loop 0 h (fun i b =>
             let temp := g (get b i) in
             let b := <[i := g (get b (i + h))]> b in
             <[(i + h)%nat := temp]> b) buf in
  length r = length buf /\
  (forall j, (j < h)%nat -> r !! j = Some (g (get buf (j + h)))) /\
  (forall j, (h <= j < 2 * h)%nat -> r !! j = Some (g (get buf (j - h)))) /\
  (forall j, (2 * h <= j)%nat -> r !! j = buf !! j).
Proof.
  intros Hlen r.
  assert (Hinv :
    length r = length buf /\
    (forall j, (j < h)%nat -> r !! j = Some (g (get buf (j + h)))) /\
    (forall j, (h <= j < h + h)%nat -> r !! j = Some (g (get buf (j - h)))) /\
    (forall j, ~ (j < h)%nat -> ~ (h <= j < h + h)%nat -> r !! j = buf !! j)).
  { subst r.
    apply (for_loop_ind (fun k x =>
      length x = length buf /\
      (forall j, (j < k)%nat -> x !! j = Some (g (get buf (j + h)))) /\
      (forall j, (h <= j < h + k)%nat -> x !! j = Some (g (get buf (j - h)))) /\
      (forall j, ~ (j < k)%nat -> ~ (h <= j < h + k)%nat -> x !! j = buf !! j))).
    - split; [done|]. split; [intros; lia|]. split; [intros; lia|done].
    - intros k x Hk (Hx & Hlo & Hhi & Hrest). simpl.
      assert (Hgk : get x k = get buf k).
      { unfold get, arr_get. rewrite Hrest by lia. done. }
      assert (Hgkh : get x (k + h) = get buf (k + h)).
      { unfold get, arr_get. rewrite Hrest by lia. done. }
      rewrite Hgk, Hgkh.
      split; [now rewrite !length_insert|]. split; [|split].
      + intros j Hj. rewrite list_lookup_insert_ne by lia.
        destruct (decide (j = k)) as [->|Hne].
        * rewrite list_lookup_insert_eq by lia. done.
        * rewrite list_lookup_insert_ne by lia. apply Hlo. lia.
      + intros j Hj. destruct (decide (j = k + h)%nat) as [->|Hne].
        * rewrite list_lookup_insert_eq by (rewrite length_insert; lia).
          replace (k + h - h)%nat with k by lia. done.
        * rewrite !list_lookup_insert_ne by lia. apply Hhi. lia.
      + intros j Hj1 Hj2. rewrite !list_lookup_insert_ne by lia.
        apply Hrest; lia. }
  destruct Hinv as (Hl & Hlo & Hhi & Hrest).
  split; [done|]. split; [done|]. split.
  - intros j Hj. apply Hhi. lia.
  - intros j Hj. apply Hrest; lia.
Qed.

Lemma half_bound s (buf : list D) :
  length buf = Z.to_nat (m_wlen s) -> (2 * half s <= length buf)%nat.
Proof.
  intros ->. unfold half, SizeT.div.
  destruct (Z_le_gt_dec 0 (m_wlen s)) as [Hw|Hw].
  - assert (2 * (m_wlen s / 2) <= m_wlen s) by (apply Z.mul_div_le; lia).
    assert (0 <= m_wlen s / 2) by (apply Z.div_pos; lia). lia.
  - assert (m_wlen s / 2 < 0) by (apply Z.div_lt_upper_bound; lia). lia.
Qed.

Lemma swap_halves_spec s (buf : list D) :
  (2 * half s <= length buf)%nat ->
  length (swap_halves s buf) = length buf /\
  (forall j, (j < half s)%nat ->
     swap_halves s buf !! j = Some (get buf (j + half s))) /\
  (forall j, (half s <= j < 2 * half s)%nat ->
     swap_halves s buf !! j = Some (get buf (j - half s))) /\
  (forall j, (2 * half s <= j)%nat -> swap_halves s buf !! j = buf !! j).
Proof. intros Hh. exact (half_loop_spec (fun x => x) (half s) buf Hh). Qed.

Lemma unswap_halves_spec s (buf : list D) :
  (2 * half s <= length buf)%nat ->
  length (unswap_halves s buf) = length buf /\
  (forall j, (j < half s)%nat ->
     unswap_halves s buf !! j
     = Some (d_div (get buf (j + half s)) (d_of_size_t (m_wlen s)))) /\
  (forall j, (half s <= j < 2 * half s)%nat ->
     unswap_halves s buf !! j
     = Some (d_div (get buf (j - half s)) (d_of_size_t (m_wlen s)))) /\
  (forall j, (2 * half s <= j)%nat -> unswap_halves s buf !! j = buf !! j).
Proof.
  intros Hh.
  exact (half_loop_spec (fun x => d_div x (d_of_size_t (m_wlen s))) (half s) buf Hh).
Qed.

(** X10: the first loop of [processBlock] exchanges the two halves of the
    frame, leaving the last entry of a frame of odd length in place, and
    doing it twice gives the frame back. *)
Theorem X10_swap_halves_involution s (buf : list D) :
  length buf = Z.to_nat (m_wlen s) ->
  swap_halves s buf
  = take (half s) (drop (half s) buf) ++ take (half s) buf
    ++ drop (2 * half s) buf /\
  swap_halves s (swap_halves s buf) = buf.
Proof.
  intros Hlen. pose proof (half_bound s buf Hlen) as Hh.
  destruct (swap_halves_spec s buf Hh) as (Hl & Hlo & Hhi & Hrest).
  split.
  - apply list_eq. intros j.
    destruct (decide (j < half s)%nat) as [Hj|Hj].
    + rewrite Hlo by done.
      rewrite lookup_app_l by (rewrite length_take, length_drop; lia).
      rewrite lookup_take_lt by done. rewrite lookup_drop.
      rewrite Nat.add_comm. symmetry. apply lookup_arr_get. lia.
    + rewrite lookup_app_r by (rewrite length_take, length_drop; lia).
      rewrite length_take, length_drop, Nat.min_l by lia.
      destruct (decide (j < 2 * half s)%nat) as [Hj2|Hj2].
      * rewrite Hhi by lia.
        rewrite lookup_app_l by (rewrite length_take; lia).
        rewrite lookup_take_lt by lia. symmetry. apply lookup_arr_get. lia.
      * rewrite Hrest by lia.
        rewrite lookup_app_r by (rewrite length_take; lia).
        rewrite length_take, Nat.min_l by lia.
        rewrite lookup_drop. f_equal. lia.
  - assert (Hh' : (2 * half s <= length (swap_halves s buf))%nat) by lia.
    destruct (swap_halves_spec s (swap_halves s buf) Hh')
      as (Hl2 & Hlo2 & Hhi2 & Hrest2).
    apply list_eq. intros j.
    destruct (decide (j < half s)%nat) as [Hj|Hj].
    + rewrite Hlo2 by done. unfold get at 1, arr_get. rewrite Hhi by lia.
      simpl. replace (j + half s - half s)%nat with j by lia.
      symmetry. apply lookup_arr_get. lia.
    + destruct (decide (j < 2 * half s)%nat) as [Hj2|Hj2].
      * rewrite Hhi2 by lia. unfold get at 1, arr_get. rewrite Hlo by lia.
        simpl. replace (j - half s + half s)%nat with j by lia.
        symmetry. apply lookup_arr_get. lia.
      * rewrite Hrest2 by lia. apply Hrest. lia.
Qed.

(** X11: the loop after the inverse transform exchanges the halves and
    divides by the window length, but only reaches [2 * (m_wlen / 2)]
    entries: the last entry of a frame of odd length is neither moved nor
    divided. *)
Theorem X11_unswap_halves_odd_length s (buf : list D) :
  length buf = Z.to_nat (m_wlen s) ->
  unswap_halves s buf
  = map (fun x => d_div x (d_of_size_t (m_wlen s)))
        (take (2 * half s) (swap_halves s buf))
    ++ drop (2 * half s) buf /\
  (Z.odd (m_wlen s) = true -> 0 < m_wlen s ->
   unswap_halves s buf !! (Z.to_nat (m_wlen s) - 1)%nat
   = buf !! (Z.to_nat (m_wlen s) - 1)%nat).
Proof.
  intros Hlen. pose proof (half_bound s buf Hlen) as Hh.
  destruct (unswap_halves_spec s buf Hh) as (Hl & Hlo & Hhi & Hrest).
  destruct (swap_halves_spec s buf Hh) as (Sl & Slo & Shi & _).
  split.
  - apply list_eq. intros j.
    destruct (decide (j < 2 * half s)%nat) as [Hj|Hj].
    + rewrite lookup_app_l by (rewrite length_map, length_take; lia).
      rewrite list_lookup_fmap, lookup_take_lt by done.
      destruct (decide (j < half s)%nat) as [Hj1|Hj1].
      * rewrite Hlo, Slo by done. done.
      * rewrite Hhi, Shi by lia. done.
    + rewrite Hrest by lia.
      rewrite lookup_app_r by (rewrite length_map, length_take; lia).
      rewrite length_map, length_take, Nat.min_l by lia.
      rewrite lookup_drop. f_equal. lia.
  - intros Hodd Hpos. apply Hrest. unfold half, SizeT.div.
    destruct (proj1 (Z.odd_spec _) Hodd) as [m Hm].
    assert (Hq : m_wlen s / 2 = m) by (rewrite Hm; Z.div_mod_to_equations; lia).
    rewrite Hq. lia.
Qed.

(** ** IntegerTimeStretcher: where the frames go *)

(** The inner loop, counted: it makes some number [k] of passes, each
    taking [m_n1] frames off the front of the input ring and adding [m_n2]
    frames to the output ring, and stops with no block ready. *)
Lemma process_blocks_passes fuel s :
  wf s -> (length (rb_data (m_inbuf s)) < fuel)%nat ->
  exists s' (k : nat),
    process_blocks fuel s = Some s' /\ wf s' /\ same_params s s' /\
    block_ready s' = false /\
    (k * Z.to_nat (m_n1 s) <= length (rb_data (m_inbuf s)))%nat /\
    rb_data (m_inbuf s')
      = drop (k * Z.to_nat (m_n1 s)) (rb_data (m_inbuf s)) /\
    getReadSpace (m_outbuf s')
      = getReadSpace (m_outbuf s) + Z.of_nat k * m_n2 s.
Proof.
  revert s. induction fuel as [|fuel IH]; intros s Hwf Hfuel; [lia|].
  rewrite process_blocks_unfold. destruct (block_ready s) eqn:Hready.
  - destruct (process_one_block_spec s Hwf Hready) as (_ & Hin & Hrs & _ & Hos & _).
    pose proof (proj1 (block_ready_iff s) Hready) as [Hrd _].
    pose proof (wf_n1 s Hwf) as Hn1. pose proof (wf_wlen s Hwf) as Hw.
    pose proof (wf_n2 s Hwf) as Hn2. pose proof (wf_ratio s Hwf) as Hr.
    assert (Hn1W : m_n1 s <= m_wlen s) by nia.
    unfold getReadSpace in Hrd, Hrs.
    destruct (process_one_block_fields s) as (_ & F1 & F2 & _).
    destruct (IH (process_one_block s)) as (s' & k & Hrun & Hwf' & Hsame & Hstop & Hk & Hdata & Hout).
    + now apply process_one_block_wf.
    + lia.
    + exists s', (S k). rewrite F1, F2 in *. rewrite Hin in Hk, Hdata.
      rewrite length_drop in Hk. rewrite drop_drop in Hdata.
      split; [done|]. split; [done|]. split.
      { eapply same_params_trans; [apply process_one_block_same_params|done]. }
      split; [done|]. split; [simpl; lia|]. split.
      { rewrite Hdata. f_equal; simpl; lia. }
      rewrite Hout, Hos. lia.
  - exists s, O. simpl. rewrite drop_0.
    split; [done|]. split; [done|]. split; [apply same_params_refl|].
    split; [done|]. split; [lia|]. split; [done|]. lia.
Qed.

(** What the body of the outer loop does when the input ring has room. *)
Lemma feed_continue inner s input samples consumed :
  SizeT.in_range samples -> 0 <= consumed < samples ->
  0 < getWriteSpace (m_inbuf s) ->
  let w := Z.min (getWriteSpace (m_inbuf s)) (samples - consumed) in
  feed inner s input samples consumed
  = match process_blocks inner
            (set_inbuf s
               {| rb_size := rb_size (m_inbuf s);
                  rb_data := rb_data (m_inbuf s)
                             ++ take (Z.to_nat w) (drop (Z.to_nat consumed) input) |})
    with
    | Some s' => Some (Continue s' (consumed + w))
    | None => None
    end.
Proof.
  intros Hs Hc Hroom w. unfold feed. unfold SizeT.in_range in Hs.
  rewrite sub_small by (unfold SizeT.in_range; lia). fold w.
  replace (w =? 0) with false by (symmetry; apply Z.eqb_neq; lia).
  rewrite add_small by (unfold SizeT.in_range; lia).
  unfold write. rewrite (Z.min_l w) by lia. done.
Qed.

(** The outer loop, counted. *)
Lemma feed_all_accounting inner input samples fuel s consumed :
  wf s -> SizeT.in_range samples -> 0 <= consumed <= samples ->
  (Z.to_nat (m_wlen s) < inner)%nat ->
  (Z.to_nat (samples - consumed) < fuel)%nat ->
  exists s' consumed' (k : nat),
    feed_all fuel inner s input samples consumed = Some (s', consumed') /\
    wf s' /\ same_params s s' /\ consumed <= consumed' <= samples /\
    rb_data (m_inbuf s')
      = drop (k * Z.to_nat (m_n1 s))
          (rb_data (m_inbuf s)
           ++ take (Z.to_nat (consumed' - consumed)) (drop (Z.to_nat consumed) input)) /\
    (k * Z.to_nat (m_n1 s)
     <= length (rb_data (m_inbuf s)
                ++ take (Z.to_nat (consumed' - consumed))
                     (drop (Z.to_nat consumed) input)))%nat /\
    getReadSpace (m_outbuf s')
      = getReadSpace (m_outbuf s) + Z.of_nat k * m_n2 s /\
    ((consumed' = consumed /\ s' = s) \/
     (consumed < consumed' /\ block_ready s' = false)) /\
    (consumed' < samples -> getWriteSpace (m_inbuf s') = 0).
Proof.
  revert s consumed.
  induction fuel as [|fuel IH]; intros s consumed Hwf Hs Hc Hinner Hfuel; [lia|].
  simpl. destruct (consumed <? samples) eqn:Hlt.
  - apply Z.ltb_lt in Hlt.
    destruct (feed_spec inner s input samples consumed Hwf Hs ltac:(lia) Hinner)
      as [[Hfull ->]|(Hroom & _)].
    + exists s, consumed, O. rewrite Z.sub_diag. simpl. rewrite take_0, app_nil_r, drop_0.
      split; [done|]. split; [done|]. split; [apply same_params_refl|].
      split; [lia|]. split; [done|]. split; [lia|]. split; [lia|].
      split; [now left|done].
    + rewrite (feed_continue inner s input samples consumed Hs ltac:(lia) Hroom).
      set (w := Z.min (getWriteSpace (m_inbuf s)) (samples - consumed)).
      set (A := take (Z.to_nat w) (drop (Z.to_nat consumed) input)).
      set (mid := set_inbuf s {| rb_size := rb_size (m_inbuf s);
                                 rb_data := rb_data (m_inbuf s) ++ A |}).
      assert (Hwfm : wf mid).
      { pose proof (set_inbuf_write_wf s (drop (Z.to_nat consumed) input) w Hwf
                      ltac:(lia)) as Hm.
        unfold write in Hm. simpl in Hm. rewrite (Z.min_l w) in Hm by lia. exact Hm. }
      destruct (process_blocks_passes inner mid Hwfm)
        as (s1 & k1 & Hrun1 & Hwf1 & Hsame1 & Hstop1 & Hk1 & Hdata1 & Hout1).
      { pose proof (wf_inbuf _ Hwfm) as Hok. pose proof (wf_inbuf_size _ Hwfm) as Hsz.
        unfold RingBuffer.ok, getWriteSpace, getReadSpace in Hok.
        subst mid. simpl in *. lia. }
      rewrite Hrun1. subst mid. simpl in Hk1, Hdata1, Hout1.
      assert (Hsame01 : same_params s s1).
      { eapply same_params_trans; [|exact Hsame1]. unfold same_params. simpl. tauto. }
      pose proof Hsame01 as (_ & E1 & E2 & Ew & _).
      destruct (IH s1 (consumed + w) Hwf1 Hs)
        as (s' & c' & k2 & Hrun & Hwf' & Hsame & Hc' & Hdata & Hk2 & Hout & Hdisj & Hend).
      * lia.
      * rewrite Ew. exact Hinner.
      * lia.
      * assert (Hstop : block_ready s' = false).
        { destruct Hdisj as [[_ ->]|[_ Hst]]; [exact Hstop1|exact Hst]. }
        clear Hdisj. rewrite E1 in Hdata, Hk2. rewrite E2 in Hout.
        rewrite Hdata1 in Hdata, Hk2.
        assert (HAB : A ++ take (Z.to_nat (c' - (consumed + w)))
                             (drop (Z.to_nat (consumed + w)) input)
                      = take (Z.to_nat (c' - consumed)) (drop (Z.to_nat consumed) input)).
        { subst A. replace (Z.to_nat (consumed + w))
            with (Z.to_nat consumed + Z.to_nat w)%nat by lia.
          rewrite <- drop_drop, take_take_drop. f_equal. lia. }
        rewrite <- drop_app_le in Hdata, Hk2 by exact Hk1.
        assert (HlenA : (length (rb_data (m_inbuf s) ++ A)
                         <= length (rb_data (m_inbuf s)
                              ++ take (Z.to_nat (c' - consumed))
                                   (drop (Z.to_nat consumed) input)))%nat).
        { rewrite <- HAB, !length_app. lia. }
        rewrite <- app_assoc, HAB in Hdata, Hk2.
        rewrite drop_drop in Hdata. rewrite length_drop in Hk2.
        exists s', c', (k1 + k2)%nat.
        split; [done|]. split; [done|]. split.
        { eapply same_params_trans; [exact Hsame01|exact Hsame]. }
        split; [lia|]. split.
        { rewrite Hdata. f_equal. lia. }
        split; [lia|]. split; [rewrite Hout, Hout1; lia|].
        split; [|done]. right. split; [lia|done].
  - apply Z.ltb_ge in Hlt. exists s, consumed, O.
    rewrite Z.sub_diag. simpl. rewrite take_0, app_nil_r, drop_0.
    split; [done|]. split; [done|]. split; [apply same_params_refl|].
    split; [lia|]. split; [done|]. split; [lia|]. split; [lia|].
    split; [now left|lia].
Qed.

(** X1: the invariant of the constructor survives every call of [process],
    which returns with the hops, the ratio, the window and the sizes of the
    two rings as they were. *)
Theorem X1_process_keeps_invariant fuel s input output samples :
  wf s -> SizeT.in_range samples -> (enough_fuel s samples <= fuel)%nat ->
  exists s' out,
    process fuel s input output samples = Some (s', out) /\
    wf s' /\ same_params s s' /\
    getReadSpace (m_inbuf s') <= m_wlen s /\
    getReadSpace (m_outbuf s') <= rb_size (m_outbuf s).
Proof.
  intros Hwf Hs Hfuel.
  destruct (process_wf fuel s input output samples Hwf Hs Hfuel)
    as (s' & out & Hrun & Hwf' & Hsame).
  exists s', out. split; [done|]. split; [done|]. split; [done|].
  pose proof (wf_inbuf s' Hwf') as Hi. pose proof (wf_outbuf s' Hwf') as Ho.
  pose proof (wf_inbuf_size s' Hwf') as Hsz.
  destruct Hsame as (_ & _ & _ & Ew & _ & _ & Eo).
  unfold RingBuffer.ok, getWriteSpace in Hi, Ho. lia.
Qed.

(** X2: frames pass through in order and none is made up.  After the loops
    of [process] the input ring holds what it held followed by the
    [consumed] frames taken from [input], less [k] hops of [m_n1] frames
    taken off the front, and the output ring has gained [k] hops of [m_n2]
    frames; so ratio times the input fill plus the output fill has grown
    by ratio times [consumed]. *)
Theorem X2_process_frame_accounting fuel s (input output : list D) samples :
  wf s -> SizeT.in_range samples -> (Z.to_nat samples <= length input)%nat ->
  (enough_fuel s samples <= fuel)%nat ->
  exists s1 consumed (k : nat),
    feed_all fuel fuel s input samples 0 = Some (s1, consumed) /\
    process fuel s input output samples = Some (drain s1 output samples) /\
    0 <= consumed <= samples /\
    rb_data (m_inbuf s1)
      = drop (k * Z.to_nat (m_n1 s))
          (rb_data (m_inbuf s) ++ take (Z.to_nat consumed) input) /\
    getReadSpace (m_outbuf s1)
      = getReadSpace (m_outbuf s) + Z.of_nat k * m_n2 s /\
    m_ratio s * getReadSpace (m_inbuf s1) + getReadSpace (m_outbuf s1)
      = m_ratio s * (getReadSpace (m_inbuf s) + consumed)
        + getReadSpace (m_outbuf s).
Proof.
  intros Hwf Hs Hin Hfuel. unfold enough_fuel in Hfuel.
  destruct (feed_all_accounting fuel input samples fuel s 0 Hwf Hs)
    as (s1 & c & k & Hrun & _ & _ & Hc & Hdata & Hk & Hout & _).
  { unfold SizeT.in_range in Hs. lia. }
  { lia. }
  { rewrite Z.sub_0_r. lia. }
  rewrite Z.sub_0_r in Hdata, Hk. simpl in Hdata, Hk. rewrite drop_0 in Hdata, Hk.
  exists s1, c, k. unfold process. rewrite Hrun.
  split; [done|]. split; [done|]. split; [done|]. split; [done|]. split; [done|].
  unfold getReadSpace in *. rewrite Hdata, length_drop.
  rewrite length_app, length_take in Hk |- *.
  pose proof (wf_n2 s Hwf) as Hn2. pose proof (wf_n1 s Hwf) as Hn1.
  unfold SizeT.in_range in Hs.
  rewrite Nat.min_l in Hk |- * by lia.
  rewrite Hout, Hn2, Nat2Z.inj_sub, Nat2Z.inj_add, Nat2Z.inj_mul by exact Hk.
  rewrite !Z2Nat.id by lia. ring.
Qed.

(** X3: once [process] has accepted some of the input of a call, it drops
    the rest only when the input ring is full and the output ring has no
    room for another hop. *)
Theorem X3_process_drops_only_when_output_full fuel s (input : list D) samples :
  wf s -> SizeT.in_range samples -> (enough_fuel s samples <= fuel)%nat ->
  exists s1 consumed,
    feed_all fuel fuel s input samples 0 = Some (s1, consumed) /\
    0 <= consumed <= samples /\
    (0 < consumed < samples ->
     getReadSpace (m_inbuf s1) = m_wlen s /\
     getWriteSpace (m_outbuf s1) < m_n2 s).
Proof.
  intros Hwf Hs Hfuel. unfold enough_fuel in Hfuel.
  destruct (feed_all_accounting fuel input samples fuel s 0 Hwf Hs)
    as (s1 & c & k & Hrun & Hwf1 & Hsame & Hc & _ & _ & _ & Hdisj & Hend).
  { unfold SizeT.in_range in Hs. lia. }
  { lia. }
  { rewrite Z.sub_0_r. lia. }
  exists s1, c. split; [done|]. split; [done|]. intros Hpart.
  destruct Hdisj as [[-> _]|[_ Hstop]]; [lia|].
  specialize (Hend ltac:(lia)).
  destruct Hsame as (_ & _ & E2 & Ew & _).
  pose proof (wf_inbuf_size s1 Hwf1) as Hsz. unfold getWriteSpace in Hend.
  split; [lia|].
  destruct (Z_lt_ge_dec (getWriteSpace (m_outbuf s1)) (m_n2 s)) as [Hlt|Hge]; [done|].
  exfalso. assert (Hready : block_ready s1 = true); [|congruence].
  apply block_ready_iff. lia.
Qed.

(** ** IntegerTimeStretcher: edge cases of process *)

Lemma feed_all_done fuel inner s (input : list D) samples consumed :
  samples <= consumed ->
  feed_all (S fuel) inner s input samples consumed = Some (s, consumed).
Proof.
  intros Hge. simpl.
  now replace (consumed <? samples) with false by (symmetry; apply Z.ltb_ge; lia).
Qed.

Lemma set_outbuf_same s :
  set_outbuf s {| rb_size := rb_size (m_outbuf s); rb_data := rb_data (m_outbuf s) |}
  = s.
Proof. destruct s as [r n1 n2 w ty ib [sz d] m]. reflexivity. Qed.

(** X5: a call for no samples changes nothing: the stretcher and the
    caller's [output] array come back as they were. *)
Theorem X5_process_zero_samples fuel s (input output : list D) :
  (1 <= fuel)%nat -> process fuel s input output 0 = Some (s, output).
Proof.
  intros Hfuel. destruct fuel as [|fuel]; [lia|].
  unfold process. rewrite feed_all_done by lia. unfold drain.
  change (SizeT.mul 0 (m_ratio s)) with 0.
  replace (getReadSpace (m_outbuf s) <? 0) with false
    by (symmetry; apply Z.ltb_ge, rb_getReadSpace_nonneg).
  unfold read. rewrite Z.min_l by apply rb_getReadSpace_nonneg.
  simpl. rewrite drop_0. now rewrite set_outbuf_same.
Qed.

(** X4: until a whole window has been buffered nothing is processed.  When
    the frames in the input ring and the new ones together stay below the
    window length and the output ring is empty, [process] only appends the
    new frames to the input ring and fills the first [samples * m_ratio]
    entries of [output] with zeros. *)
Theorem X4_process_cold_start fuel s (input output : list D) samples :
  wf s -> 0 <= samples ->
  getReadSpace (m_inbuf s) + samples < m_wlen s ->
  rb_data (m_outbuf s) = [] ->
  (Z.to_nat samples <= length input)%nat ->
  (Z.to_nat (samples * m_ratio s) <= length output)%nat ->
  samples * m_ratio s < SizeT.modulus ->
  (2 <= fuel)%nat ->
  exists s',
    process fuel s input output samples
    = Some (s', replicate (Z.to_nat (samples * m_ratio s)) d_zero
                ++ drop (Z.to_nat (samples * m_ratio s)) output) /\
    rb_data (m_inbuf s') = rb_data (m_inbuf s) ++ take (Z.to_nat samples) input /\
    rb_data (m_outbuf s') = [] /\
    m_mashbuf s' = m_mashbuf s.
Proof.
  intros Hwf Hs Hshort Hempty Hin Hroom Hov Hfuel.
  destruct fuel as [|[|fuel]]; [lia|lia|].
  pose proof (wf_wlen s Hwf) as Hw. pose proof (wf_ratio s Hwf) as Hr.
  pose proof (wf_inbuf_size s Hwf) as Hsz.
  assert (Hrange : SizeT.in_range samples).
  { unfold SizeT.in_range. pose proof (rb_getReadSpace_nonneg (m_inbuf s)). lia. }
  assert (Hloop : exists s1,
    feed_all (S (S fuel)) (S (S fuel)) s input samples 0 = Some (s1, samples) /\
    rb_data (m_inbuf s1) = rb_data (m_inbuf s) ++ take (Z.to_nat samples) input /\
    m_outbuf s1 = m_outbuf s /\ m_mashbuf s1 = m_mashbuf s /\ m_ratio s1 = m_ratio s).
  { destruct (Z.eq_dec samples 0) as [->|Hne].
    - exists s. rewrite feed_all_done by lia. simpl. rewrite take_0, app_nil_r. done.
    - change (feed_all (S (S fuel)) (S (S fuel)) s input samples 0)
        with (if 0 <? samples
              then match feed (S (S fuel)) s input samples 0 with
                   | None => None
                   | Some Break => Some (s, 0)
                   | Some (Continue s' consumed') =>
                       feed_all (S fuel) (S (S fuel)) s' input samples consumed'
                   end
              else Some (s, 0)).
      replace (0 <? samples) with true by (symmetry; apply Z.ltb_lt; lia).
      rewrite (feed_continue _ s input samples 0 Hrange ltac:(lia)
                 ltac:(unfold getWriteSpace; lia)). cbv zeta.
      assert (Hmin : Z.min (getWriteSpace (m_inbuf s)) (samples - 0) = samples)
        by (unfold getWriteSpace; lia).
      rewrite !Hmin. simpl (drop (Z.to_nat 0) input).
      set (mid := set_inbuf s _).
      assert (Hstop : block_ready mid = false).
      { apply not_true_is_false. intros [Hrd _]%block_ready_iff.
        subst mid. unfold getReadSpace in *. simpl in Hrd.
        rewrite length_app, length_take in Hrd. lia. }
      rewrite process_blocks_unfold, Hstop, Z.add_0_l. cbv beta iota.
      rewrite feed_all_done by lia. exists mid. done. }
  destruct Hloop as (s1 & Hrun & Hdata & Hout & Hmash & Hratio).
  unfold process. rewrite Hrun.
  rewrite drain_spec; rewrite ?Hratio; try lia.
  rewrite Hout, Hempty. simpl. rewrite take_nil, drop_nil, Nat.sub_0_r.
  eexists. split; [reflexivity|]. simpl. done.
Qed.


(** X9: for every stretcher that satisfies the invariant,
    [getProcessingLatency] is the window length less the input increment,
    computed without wrap-around; it is at least the input increment and
    below the window length, and it is the window length less the synthesis
    hop exactly when the ratio is one. *)
Theorem X9_latency_is_window_less_input_increment s :
  wf s ->
  getProcessingLatency s = m_wlen s - m_n1 s /\
  m_n1 s <= getProcessingLatency s < m_wlen s /\
  (getProcessingLatency s = m_wlen s - m_n2 s <-> m_ratio s = 1).
Proof.
  intros Hwf. pose proof (getProcessingLatency_spec s Hwf) as Hl.
  split; [done|]. split; [|now apply getProcessingLatency_synthesis_hop].
  rewrite Hl. destruct Hwf as [Hr Hn1 Hn2 Hw _ _ _ _ _]. nia.
Qed.

(** X6: a full input ring is a trap.  Called with a full input ring,
    [process] takes no frame from [input] and runs no block: it only hands
    out what the output ring holds, and the input ring is as full
    afterwards, so every later call does the same; once the output ring is
    empty the stretcher delivers zeros only. *)
Theorem X6_process_full_input_ring_stays_full fuel s (input output : list D) samples :
  getWriteSpace (m_inbuf s) = 0 -> (1 <= fuel)%nat ->
  process fuel s input output samples = Some (drain s output samples) /\
  m_inbuf (drain s output samples).1 = m_inbuf s /\
  m_mashbuf (drain s output samples).1 = m_mashbuf s /\
  getWriteSpace (m_inbuf (drain s output samples).1) = 0 /\
  (rb_data (m_outbuf s) = [] ->
   0 <= samples -> 0 <= m_ratio s -> samples * m_ratio s < SizeT.modulus ->
   (Z.to_nat (samples * m_ratio s) <= length output)%nat ->
   (drain s output samples).2
   = replicate (Z.to_nat (samples * m_ratio s)) d_zero
     ++ drop (Z.to_nat (samples * m_ratio s)) output /\
   rb_data (m_outbuf (drain s output samples).1) = []).
Proof.
  intros Hfull Hfuel. destruct fuel as [|fuel]; [lia|].
  assert (Hrun : feed_all (S fuel) (S fuel) s input samples 0 = Some (s, 0)).
  { simpl. destruct (0 <? samples); [|done].
    unfold feed. rewrite Hfull.
    rewrite Z.min_l by apply Z.mod_pos_bound, modulus_pos. done. }
  assert (Hkeep : m_inbuf (drain s output samples).1 = m_inbuf s /\
                  m_mashbuf (drain s output samples).1 = m_mashbuf s).
  { unfold drain. destruct (_ <? _); unfold read; simpl; done. }
  destruct Hkeep as [Hin Hmash].
  unfold process. rewrite Hrun.
  split; [done|]. split; [done|]. split; [done|]. split; [now rewrite Hin|].
  intros Hempty Hs Hr Hov Hroom.
  rewrite drain_spec by done. simpl. rewrite Hempty. simpl.
  now rewrite take_nil, drop_nil, Nat.sub_0_r.
Qed.

(** X7: when the output ring is smaller than one synthesis hop (the maximum
    input block was chosen below the input increment), no block is ever
    processed: a call with an empty output ring returns zeros only and
    leaves the output ring empty, so the next call finds the same. *)
Theorem X7_process_output_ring_below_hop fuel s (input output : list D) samples :
  wf s -> rb_size (m_outbuf s) < m_n2 s -> rb_data (m_outbuf s) = [] ->
  SizeT.in_range samples -> samples * m_ratio s < SizeT.modulus ->
  (Z.to_nat (samples * m_ratio s) <= length output)%nat ->
  (enough_fuel s samples <= fuel)%nat ->
  exists s',
    process fuel s input output samples
    = Some (s', replicate (Z.to_nat (samples * m_ratio s)) d_zero
                ++ drop (Z.to_nat (samples * m_ratio s)) output) /\
    rb_data (m_outbuf s') = [] /\ wf s' /\ same_params s s'.
Proof.
  intros Hwf Hsmall Hempty Hs Hov Hroom Hfuel. unfold enough_fuel in Hfuel.
  destruct (feed_all_accounting fuel input samples fuel s 0 Hwf Hs)
    as (s1 & c & k & Hrun & Hwf1 & Hsame & _ & _ & _ & Hout & _).
  { unfold SizeT.in_range in Hs. lia. }
  { lia. }
  { rewrite Z.sub_0_r. lia. }
  pose proof (wf_outbuf s1 Hwf1) as Hok. unfold RingBuffer.ok, getWriteSpace in Hok.
  pose proof Hsame as (Er & _ & _ & _ & _ & _ & Eo).
  pose proof (wf_ratio s Hwf) as Hr. pose proof (wf_n1 s Hwf) as Hn1.
  pose proof (wf_n2 s Hwf) as Hn2.
  assert (Hk : k = O).
  { unfold getReadSpace in Hout. rewrite Hempty in Hout. simpl in Hout.
    unfold getReadSpace in Hok. destruct k as [|k]; [done|]. nia. }
  subst k. unfold getReadSpace in Hout. rewrite Hempty in Hout. simpl in Hout.
  assert (Hempty1 : rb_data (m_outbuf s1) = []).
  { destruct (rb_data (m_outbuf s1)); [done|]. simpl in Hout. lia. }
  destruct (drain_wf s1 output samples Hwf1) as [Hwf' Hsame'].
  unfold process. rewrite Hrun.
  unfold SizeT.in_range in Hs.
  assert (Hd := drain_spec s1 output samples).
  rewrite Er, Hempty1 in Hd. simpl in Hd.
  rewrite take_nil, drop_nil, Nat.sub_0_r in Hd.
  specialize (Hd ltac:(lia) ltac:(lia) Hov Hroom).
  destruct (drain s1 output samples) as [s' out].
  injection Hd as -> ->. simpl in Hwf', Hsame'.
  eexists. split; [reflexivity|]. split; [done|]. split; [done|].
  eapply same_params_trans; eassumption.
Qed.

End StretcherExtras.

(** ** The further theorems at concrete inputs *)

(** The stretcher [hop_three] is caught in the trap after three blocks. *)
Example hop_three_input_ring_full :
  RingBuffer.getWriteSpace
    (IntegerTimeStretcher.m_inbuf hop_three_after_three_blocks) = 0.
Proof. reflexivity. Qed.

Lemma X1_witness :
  exists s' out,
    IntegerTimeStretcher.process 5 by_two [10; 20; 30; 40] (replicate 10 9) 4
    = Some (s', out) /\
    IntegerTimeStretcher.wf s'.
Proof.
  destruct (X1_process_keeps_invariant 5 by_two [10; 20; 30; 40] (replicate 10 9) 4)
    as (s' & out & Hrun & Hwf & _).
  - wf_by_evaluation.
  - vm_compute. split; [discriminate | reflexivity].
  - vm_compute. lia.
  - exists s', out. split; [exact Hrun | exact Hwf].
Defined.

Lemma X2_witness :
  exists s1,
    IntegerTimeStretcher.feed_all 5 5 by_two [10; 20; 30; 40] 4 0 = Some (s1, 4) /\
    RingBuffer.rb_data (IntegerTimeStretcher.m_inbuf s1)
    = drop 1 [10; 20; 30; 40] /\
    RingBuffer.getReadSpace (IntegerTimeStretcher.m_outbuf s1) = 2.
Proof.
  destruct (X2_process_frame_accounting 5 by_two [10; 20; 30; 40]
              (replicate 10 9) 4)
    as (s1 & c & k & Hrun & _ & _ & Hdata & Hout & _).
  - wf_by_evaluation.
  - vm_compute. split; [discriminate | reflexivity].
  - vm_compute. lia.
  - vm_compute. lia.
  - assert (Hc : c = 4).
    { vm_compute in Hrun. injection Hrun as _ <-. reflexivity. }
    subst c.
    assert (Hs1 : RingBuffer.getReadSpace (IntegerTimeStretcher.m_outbuf s1) = 2).
    { vm_compute in Hrun. injection Hrun as <-. reflexivity. }
    assert (Hk : k = 1%nat).
    { rewrite Hs1 in Hout. change (2 = 0 + Z.of_nat k * 2) in Hout. lia. }
    subst k. exists s1. split; [exact Hrun|]. split; [exact Hdata | exact Hs1].
Defined.

Lemma X3_witness :
  exists s1,
    IntegerTimeStretcher.feed_all 7 7 short_block_loaded [6; 7] 2 0 = Some (s1, 1) /\
    RingBuffer.getReadSpace (IntegerTimeStretcher.m_inbuf s1) = 6 /\
    RingBuffer.getWriteSpace (IntegerTimeStretcher.m_outbuf s1) < 3.
Proof.
  destruct (X3_process_drops_only_when_output_full 7 short_block_loaded [6; 7] 2)
    as (s1 & c & Hrun & _ & Hdrop).
  - wf_by_evaluation.
  - vm_compute. split; [discriminate | reflexivity].
  - vm_compute. lia.
  - assert (Hc : c = 1).
    { vm_compute in Hrun. injection Hrun as _ <-. reflexivity. }
    subst c. exists s1. split; [exact Hrun|]. apply Hdrop. lia.
Defined.

Lemma X4_witness :
  exists s',
    IntegerTimeStretcher.process 2 by_two [10; 20; 30] (replicate 8 9) 3
    = Some (s', replicate 6 0 ++ [9; 9]) /\
    RingBuffer.rb_data (IntegerTimeStretcher.m_inbuf s') = [10; 20; 30].
Proof.
  destruct (X4_process_cold_start 2 by_two [10; 20; 30] (replicate 8 9) 3)
    as (s' & Hrun & Hin & _).
  - wf_by_evaluation.
  - lia.
  - vm_compute. reflexivity.
  - reflexivity.
  - vm_compute. lia.
  - vm_compute. lia.
  - vm_compute. reflexivity.
  - lia.
  - exists s'. split; [exact Hrun | exact Hin].
Defined.

Lemma X5_witness :
  IntegerTimeStretcher.process 1 by_two_loaded [] [9; 9] 0
  = Some (by_two_loaded, [9; 9]).
Proof. apply (X5_process_zero_samples 1 by_two_loaded [] [9; 9]). lia. Defined.

Lemma X6_witness :
  (IntegerTimeStretcher.process 1 hop_three_after_three_blocks [13; 14; 15; 16]
     (replicate 4 9) 4
   = Some (IntegerTimeStretcher.drain hop_three_after_three_blocks (replicate 4 9) 4)) /\
  (IntegerTimeStretcher.drain hop_three_after_three_blocks (replicate 4 9) 4).2
  = replicate 4 0 ++ [].
Proof.
  destruct (X6_process_full_input_ring_stays_full 1 hop_three_after_three_blocks
              [13; 14; 15; 16] (replicate 4 9) 4)
    as (Hrun & _ & _ & _ & Hzeros).
  - reflexivity.
  - lia.
  - split; [exact Hrun|].
    destruct Hzeros as [Hout _]; [reflexivity|lia|vm_compute; discriminate| |
                                  vm_compute; lia|exact Hout].
    vm_compute. reflexivity.
Defined.

Lemma X7_witness :
  exists s',
    IntegerTimeStretcher.process 7 short_block [1; 2] (replicate 3 9) 2
    = Some (s', replicate 2 0 ++ [9]) /\
    RingBuffer.rb_data (IntegerTimeStretcher.m_outbuf s') = [].
Proof.
  destruct (X7_process_output_ring_below_hop 7 short_block [1; 2] (replicate 3 9) 2)
    as (s' & Hrun & Hempty & _).
  - wf_by_evaluation.
  - vm_compute. reflexivity.
  - reflexivity.
  - vm_compute. split; [discriminate | reflexivity].
  - vm_compute. reflexivity.
  - vm_compute. lia.
  - vm_compute. lia.
  - exists s'. split; [exact Hrun | exact Hempty].
Defined.


Lemma X9_witness :
  IntegerTimeStretcher.getProcessingLatency by_two
  = IntegerTimeStretcher.m_wlen by_two - IntegerTimeStretcher.m_n1 by_two.
Proof.
  destruct (X9_latency_is_window_less_input_increment by_two) as (Hl & _).
  - wf_by_evaluation.
  - exact Hl.
Defined.

Lemma X10_witness :
  IntegerTimeStretcher.swap_halves by_two
    (IntegerTimeStretcher.swap_halves by_two [10; 20; 30; 40])
  = [10; 20; 30; 40].
Proof.
  destruct (X10_swap_halves_involution by_two [10; 20; 30; 40]) as (_ & Hinv).
  - reflexivity.
  - exact Hinv.
Defined.

Lemma X11_witness :
  IntegerTimeStretcher.unswap_halves odd_window [10; 20; 30; 40; 50] !! 4%nat
  = Some 50.
Proof.
  destruct (X11_unswap_halves_odd_length odd_window [10; 20; 30; 40; 50])
    as (_ & Hlast).
  - reflexivity.
  - apply Hlast; reflexivity.
Defined.

Lemma X13_witness :
  AudioGenerator.NoteOffSet_of
    [ {| AudioGenerator.pitch := 62; AudioGenerator.frame := 50 |};
      {| AudioGenerator.pitch := 60; AudioGenerator.frame := 100 |} ]
  = AudioGenerator.NoteOffSet_of
      [ {| AudioGenerator.pitch := 60; AudioGenerator.frame := 100 |};
        {| AudioGenerator.pitch := 62; AudioGenerator.frame := 50 |} ].
Proof.
  destruct (X13_note_off_distinct_frames
    [ {| AudioGenerator.pitch := 60; AudioGenerator.frame := 100 |};
      {| AudioGenerator.pitch := 62; AudioGenerator.frame := 50 |} ]
    [ {| AudioGenerator.pitch := 62; AudioGenerator.frame := 50 |};
      {| AudioGenerator.pitch := 60; AudioGenerator.frame := 100 |} ])
    as (_ & _ & Heq).
  - simpl. apply NoDup_cons. split; [|apply NoDup_singleton].
    intros Hin. apply list_elem_of_singleton in Hin. discriminate.
  - apply perm_swap.
  - exact Heq.
Defined.

Lemma X14_witness :
  RingBufferVectorOwner.destroy 4 [Some 11%nat; null; Some 22%nat] []
  = Some (Returns ([], [Some 11%nat; null; Some 22%nat])) /\
  RingBufferVectorOwner.destroy 3 [Some 11%nat; Some 11%nat] [] = Some Undefined.
Proof.
  split.
  - apply (X14_destructor_deletes_all [Some 11%nat; null; Some 22%nat] [] 4).
    + simpl. lia.
    + split.
      * simpl. apply NoDup_cons. split; [|apply NoDup_singleton].
        intros Hin. apply list_elem_of_singleton in Hin. discriminate.
      * intros a _. apply not_elem_of_nil.
  - apply (X14_destructor_deletes_all [Some 11%nat; Some 11%nat] [] 3).
    + simpl. lia.
    + intros [Hnd _]. simpl in Hnd. apply NoDup_cons in Hnd as [Hnew _].
      apply Hnew. left.
Defined.
